(** * BLEU score: a shallow embedding of [01_nlp_evals/bleu_score.ipynb]

    The notebook defines four functions: [preprocess_text],
    [n_gram_precision], [brevity_penalty] and [bleu_score_sentence].
    They are embedded below in the order of the notebook.

    Modelling conventions.
    - A Python [int] is a [Z].
    - A Python [str] is a [string] whose characters are the code points
      below 256; the tables of [str.isspace], [str.isalnum] and [str.lower]
      are those of CPython on that range.  The normaliser is embedded a
      second time over arbitrary characters and tables ([Unicode]); the
      first embedding is an instance of the second.
    - A [collections.Counter] is a [gmap] from n-grams to [Z]; a missing key
      reads as 0.
    - A raised exception is the [Raise] case of [result].
    - A Python [float] obtained from integers by [/], [-] is kept as an exact
      rational ([Q]); [math.exp], [math.log], [np.mean] and [np.exp] are read
      over the real numbers ([R]).  Rounding is not modelled. *)

From Stdlib Require Import Reals QArith Qreals Lra Ascii.
From stdpp Require Import gmap strings list fin_maps.

Local Open Scope Z_scope.

(** ** Exceptions *)

Inductive exn : Set :=
| ValueError
| ZeroDivisionError
| AttributeError
| IndexError.

Inductive result (A : Type) : Type :=
| Ok (a : A)
| Raise (e : exn).

Arguments Ok {A} a.
Arguments Raise {A} e.

(** [result] is a monad: the first exception raised ends the computation. *)
Global Instance result_ret : MRet result := λ A a, Ok a.
Global Instance result_bind : MBind result := λ A B k m,
  match m with
  | Ok a => k a
  | Raise e => Raise e
  end.

(** ** Python built-ins used by the notebook *)

Module Py.

(** [range(k)]: 0, 1, ..., k-1; empty when [k <= 0]. *)
Definition range (k : Z) : list Z := Z.of_nat <$> seq 0 (Z.to_nat k).

(** [range(a, b)]. *)
Definition range2 (a b : Z) : list Z := (λ i, a + i) <$> range (b - a).

(** An index of a slice, as [PySlice_AdjustIndices] clamps it. *)
Definition adjust (len i : Z) : Z :=
  if i <? 0 then Z.max 0 (i + len) else Z.min i len.

(** [l[i:j]]. *)
Definition slice {A} (l : list A) (i j : Z) : list A :=
  let len := Z.of_nat (length l) in
  let a := adjust len i in
  let b := adjust len j in
  take (Z.to_nat (b - a)) (drop (Z.to_nat a) l).

(** [len(l)]. *)
Definition len {A} (l : list A) : Z := Z.of_nat (length l).

(** [sum(l)] on integers. *)
Definition sum (l : list Z) : Z := foldl Z.add 0 l.

(** [min(l)]: ValueError on an empty iterable. *)
Definition min (l : list Z) : result Z :=
  match l with
  | [] => Raise ValueError
  | x :: l' => Ok (foldl Z.min x l')
  end.

(** [l[0]]. *)
Definition first {A} (l : list A) : result A :=
  match l with
  | [] => Raise IndexError
  | x :: _ => Ok x
  end.

(** [a / b] on integers: true division. *)
Definition truediv (a b : Z) : result Q :=
  if b =? 0 then Raise ZeroDivisionError
  else Ok (inject_Z a / inject_Z b)%Q.

End Py.

(** ** Strings *)

Module Str.

Definition ord (c : ascii) : N := N_of_ascii c.
Definition chr (n : N) : ascii := ascii_of_N n.

Definition between (lo hi n : N) : bool := ((lo <=? n) && (n <=? hi))%N.

(** [c.isspace()], which is also the separator test of [str.split()]:
    TAB..CR, FS..US, space, NEL and NBSP. *)
Definition isspace (c : ascii) : bool :=
  let n := ord c in
  between 9 13 n || between 28 32 n || (n =? 133)%N || (n =? 160)%N.

(** [c.isalnum()]: the ASCII digits and letters, and in the upper half the
    letters (feminine and masculine ordinal, micro sign, U+00C0..U+00FF
    but the multiplication and the division sign), the superscript digits
    and the three vulgar fractions. *)
Definition isalnum (c : ascii) : bool :=
  let n := ord c in
  between 48 57 n || between 65 90 n || between 97 122 n
  || bool_decide (n ∈ [170; 178; 179; 181; 185; 186; 188; 189; 190]%N)
  || (between 192 255 n && negb (n =? 215)%N && negb (n =? 247)%N).

(** [c.isupper()] on this range: the letters that [lower] moves. *)
Definition isupper (c : ascii) : bool :=
  let n := ord c in
  between 65 90 n || (between 192 222 n && negb (n =? 215)%N).

(** The lowercase letter of an uppercase one is 32 code points up. *)
Definition to_lower (c : ascii) : ascii :=
  if isupper c then chr (ord c + 32) else c.

(** [c.lower()]: a string, of one character on this range. *)
Definition lower (c : ascii) : string := String (to_lower c) "".

(** The characters of a string, as [for char in word] meets them. *)
Fixpoint chars (s : string) : list ascii :=
  match s with
  | "" => []
  | String c s' => c :: chars s'
  end.

(** ["".join(l)]. *)
Fixpoint join (l : list string) : string :=
  match l with
  | [] => ""
  | s :: l' => s +:+ join l'
  end.

(** [s.split()]: the scan keeps the word read so far; a separator ends it,
    and runs of separators, leading and trailing ones yield no word. *)
Fixpoint split_scan (word : string) (s : string) : list string :=
  match s with
  | "" => if decide (word = "") then [] else [word]
  | String c rest =>
      if isspace c
      then (if decide (word = "") then split_scan "" rest
            else word :: split_scan "" rest)
      else split_scan (word +:+ String c "") rest
  end.

Definition split (s : string) : list string := split_scan "" s.

End Str.

(** ** Python values, for the run-time type test of [preprocess_text] *)

#[warnings="-register-all"]
Inductive pyval : Type :=
| PNone
| PInt (z : Z)
| PStr (s : string)
| PList (l : list pyval)
| PTuple (l : list pyval).

(** [v.split()]: only a [str] has the method. *)
Definition call_split (v : pyval) : result (list string) :=
  match v with
  | PStr s => Ok (Str.split s)
  | _ => Raise AttributeError
  end.

(** ** Preprocessing *)

(** ["".join(char.lower() for char in word if char.isalnum())] *)
Definition clean_word (word : string) : string :=
  Str.join (Str.lower <$> filter (λ char, Str.isalnum char) (Str.chars word)).

Definition preprocess_text (sentences : pyval) : result (list (list string)) :=
  match sentences with
  | PList l =>
      mapM (M := result)
           (λ sentence,
              words ← call_split sentence;
              Ok (clean_word <$> (words : list string)))
           l
  | _ => Raise ValueError
  end.

(** What the comprehension makes of one sentence that is a [str]. *)
Definition tokens (sentence : string) : list string :=
  clean_word <$> Str.split sentence.

(** ** Preprocessing, on any alphabet

    The strings above hold the code points below 256.  Python's strings
    hold any code point, and [char.lower()] may then return several
    characters.  The module below embeds the same lines of the notebook
    over an arbitrary type of characters, with the three tables of the
    interpreter as parameters; nothing is assumed of them. *)

Module Unicode.
Section alphabet.

Variable char : Type.

(** [c.isspace()], also the separator test of [str.split()]. *)
Variable isspace : char → bool.
(** [c.isalnum()]. *)
Variable isalnum : char → bool.
(** [c.lower()]: a string, of one character or more. *)
Variable lower : char → list char.

#[warnings="-register-all"]
Inductive value : Type :=
| VNone
| VInt (z : Z)
| VStr (s : list char)
| VList (l : list value)
| VTuple (l : list value).

(** [s.split()]: the scan keeps the word read so far; a separator ends it,
    and runs of separators, leading and trailing ones yield no word. *)
Fixpoint split_scan (word s : list char) : list (list char) :=
  match s with
  | [] => match word with [] => [] | _ => [word] end
  | c :: rest =>
      if isspace c
      then match word with
           | [] => split_scan [] rest
           | _ => word :: split_scan [] rest
           end
      else split_scan (word ++ [c]) rest
  end.

Definition split (s : list char) : list (list char) := split_scan [] s.

(** [v.split()]: only a [str] has the method, among these values. *)
Definition call_split (v : value) : result (list (list char)) :=
  match v with
  | VStr s => Ok (split s)
  | _ => Raise AttributeError
  end.

(** ["".join(char.lower() for char in word if char.isalnum())] *)
Definition clean_word (word : list char) : list char :=
  mjoin (lower <$> filter (λ c, isalnum c) word).

Definition preprocess_text (sentences : value) : result (list (list (list char))) :=
  match sentences with
  | VList l =>
      mapM (M := result)
           (λ sentence,
              words ← call_split sentence;
              Ok (clean_word <$> (words : list (list char))))
           l
  | _ => Raise ValueError
  end.

(** The specification's reading of the normalisation. *)

(** A string of separators only. *)
Definition blank (s : list char) : Prop := ∀ c, c ∈ s → isspace c.

(** A string with no separator. *)
Definition solid (s : list char) : Prop := ∀ c, c ∈ s → ¬ isspace c.

(** What follows a word: the end of the string, or a separator. *)
Definition word_end (s : list char) : Prop :=
  match s with
  | [] => True
  | c :: _ => isspace c
  end.

(** [splits_into s words]: [s] is the words of [words], in this order,
    each a maximal run of characters that are no separators, with
    separators before, between and after them. *)
Inductive splits_into : list char → list (list char) → Prop :=
| splits_blank (gap : list char) :
    blank gap → splits_into gap []
| splits_word (gap word rest : list char) (words : list (list char)) :
    blank gap → word ≠ [] → solid word → word_end rest →
    splits_into rest words →
    splits_into (gap ++ word ++ rest) (word :: words).

(** [cleaned word token]: [token] is [word] read from left to right, an
    alphanumeric character giving its lowercase and any other character
    giving nothing. *)
Inductive cleaned : list char → list char → Prop :=
| cleaned_end : cleaned [] []
| cleaned_keep (c : char) (word token : list char) :
    isalnum c → cleaned word token → cleaned (c :: word) (lower c ++ token)
| cleaned_drop (c : char) (word token : list char) :
    ¬ isalnum c → cleaned word token → cleaned (c :: word) token.

End alphabet.

Arguments VNone {char}.
Arguments VInt {char} z.
Arguments VStr {char} s.
Arguments VList {char} l.
Arguments VTuple {char} l.
Arguments split_scan {char} isspace word s.
Arguments split {char} isspace s.
Arguments call_split {char} isspace v.
Arguments clean_word {char} isalnum lower word.
Arguments preprocess_text {char} isspace isalnum lower sentences.
Arguments blank {char} isspace s.
Arguments solid {char} isspace s.
Arguments word_end {char} isspace s.
Arguments splits_into {char} isspace _ _.
Arguments cleaned {char} isalnum lower _ _.

(** The code points of a string of the model above. *)
Definition codes (s : string) : list N := Str.ord <$> Str.chars s.

(** Tables of code points that agree with those of CPython on the ASCII
    range, where [Str] has them. *)
Definition ascii_tables (isspace isalnum : N → bool) (lower : N → list N) : Prop :=
  ∀ n, (n < 128)%N →
    isspace n = Str.isspace (Str.chr n)
    ∧ isalnum n = Str.isalnum (Str.chr n)
    ∧ lower n = [Str.ord (Str.to_lower (Str.chr n))].

End Unicode.

(** ** Counters *)

Module Counter.

(** [c[k]]: a missing key counts 0 (and is not inserted). *)
Definition get (c : gmap (list string) Z) (k : list string) : Z :=
  default 0 (c !! k).

(** [Counter(l)]: one more for each element, from left to right. *)
Definition of_list (l : list (list string)) : gmap (list string) Z :=
  foldl (λ c k, <[k := get c k + 1]> c) ∅ l.

(** [for k in c], [c.values()] and [c.items()] list the entries in the
    order of the [gmap], which is not the insertion order of Python; the
    notebook only sums over them and writes one entry per key. *)
Definition keys (c : gmap (list string) Z) : list (list string) :=
  (map_to_list c).*1.

Definition values (c : gmap (list string) Z) : list Z :=
  (map_to_list c).*2.

End Counter.

(** ** n-gram precision *)

(** [[tuple(s[i:i+n]) for i in range(len(s)-n+1)]] *)
Definition n_grams (s : list string) (n : Z) : list (list string) :=
  (λ i, Py.slice s i (i + n)) <$> Py.range (Py.len s - n + 1).

(** One pass of the loop over [references]: every n-gram of the reference
    raises its entry of the running maximum. *)
Definition raise_max (acc : gmap (list string) Z) (reference_n_grams : gmap (list string) Z)
  : gmap (list string) Z :=
  foldl (λ acc n_gram,
           <[n_gram := Z.max (Counter.get acc n_gram)
                             (Counter.get reference_n_grams n_gram)]> acc)
        acc (Counter.keys reference_n_grams).

Definition max_reference_n_grams (references : list (list string)) (n : Z)
  : gmap (list string) Z :=
  foldl (λ acc reference, raise_max acc (Counter.of_list (n_grams reference n)))
        ∅ references.

(** [{ng: min(count, max_reference_n_grams[ng]) for ng, count in candidate_n_grams.items()}] *)
Definition clipped_counts (candidate_n_grams max_ref : gmap (list string) Z)
  : gmap (list string) Z :=
  foldl (λ d '(ng, count), <[ng := Z.min count (Counter.get max_ref ng)]> d)
        ∅ (map_to_list candidate_n_grams).

Definition n_gram_precision (candidate : list string) (references : list (list string)) (n : Z)
  : result (Z * Z) :=
  if n <? 1 then Raise ValueError
  else
    let candidate_n_grams := Counter.of_list (n_grams candidate n) in
    let max_ref := max_reference_n_grams references n in
    let clipped := clipped_counts candidate_n_grams max_ref in
    Ok (Py.sum (Counter.values clipped), Py.sum (Counter.values candidate_n_grams)).

(** ** Brevity penalty *)

Definition brevity_penalty (candidate : list string) (references : list (list string))
  : result R :=
  let c := Py.len candidate in
  r ← Py.min (Py.len <$> references);
  if c >? r then Ok 1%R
  else
    q ← Py.truediv r c;
    Ok (exp (Q2R (1 - q))).

(** ** Final score *)

(** A [for] loop that threads its state and stops at the first exception. *)
Fixpoint for_each {A S} (l : list A) (body : S → A → result S) (s : S) : result S :=
  match l with
  | [] => Ok s
  | x :: l' => s' ← body s x; for_each l' body s'
  end.

(** [p > 0] on a float. *)
Definition Qpositive (p : Q) : bool := negb (Qle_bool p 0).

(** [np.mean(l)]: the sum over the number of elements.  On an empty list
    NumPy answers nan (it does not raise); here the quotient by 0 is the
    unspecified real [0 * / 0]. *)
Definition np_mean (l : list R) : R :=
  (foldl Rplus 0 l / INR (length l))%R.

Section Combiner.

(** The two functions the combiner calls, looked up when it runs. *)
Variable precision : list string → list (list string) → Z → result (Z * Z).
Variable penalty : list string → list (list string) → result R.

Definition bleu_score_sentence_with
    (candidate_seq : string) (references_seqs : list string) (max_n : Z) : result R :=
  sentences ← preprocess_text (PList [PStr candidate_seq]);
  candidate_seq ← Py.first sentences;
  references_seqs ← preprocess_text (PList (PStr <$> references_seqs));
  precisions ← for_each (Py.range2 1 (max_n + 1))
    (λ precisions n,
       '(p_n, total) ← precision candidate_seq references_seqs n;
       p ← (if total >? 0 then Py.truediv p_n total else Ok 0%Q);
       Ok (precisions ++ [p]))
    [];
  if forallb (λ p, Qeq_bool p 0) precisions then Ok 0%R
  else
    let geometric_mean :=
      exp (np_mean ((λ p, ln (Q2R p)) <$> filter (λ p, Qpositive p) precisions)) in
    bp ← penalty candidate_seq references_seqs;
    Ok (bp * geometric_mean)%R.

End Combiner.

Definition bleu_score_sentence : string → list string → Z → result R :=
  bleu_score_sentence_with n_gram_precision brevity_penalty.

(** ** The examples of the notebook *)

Module Examples.

Definition sentence11 : string :=
  "It is a guide to action which ensures that the military always obeys the commands of the party.".
Definition sentence12 : string :=
  "It is to insure the troops forever hearing the activity guidebook that party direct.".
Definition sentences1 : list string :=
  [ "It is a guide to action that ensures that the military will forever heed Party commands.";
    "It is the guiding principle which guarantees the military forces always being under the command of the Party.";
    "It is the practical guide for the army always to heed the directions of the party." ].
Definition sentence21 : string := "the the the the the the the.".
Definition sentences2 : list string :=
  [ "The cat is on the mat."; "The cat is on the mat." ].

(** What [preprocess_text] makes of them. *)
Definition candidate11 : list string :=
  [ "it"; "is"; "a"; "guide"; "to"; "action"; "which"; "ensures"; "that";
    "the"; "military"; "always"; "obeys"; "the"; "commands"; "of"; "the";
    "party" ].
Definition candidate12 : list string :=
  [ "it"; "is"; "to"; "insure"; "the"; "troops"; "forever"; "hearing";
    "the"; "activity"; "guidebook"; "that"; "party"; "direct" ].
Definition references1 : list (list string) :=
  [ [ "it"; "is"; "a"; "guide"; "to"; "action"; "that"; "ensures"; "that";
      "the"; "military"; "will"; "forever"; "heed"; "party"; "commands" ];
    [ "it"; "is"; "the"; "guiding"; "principle"; "which"; "guarantees";
      "the"; "military"; "forces"; "always"; "being"; "under"; "the";
      "command"; "of"; "the"; "party" ];
    [ "it"; "is"; "the"; "practical"; "guide"; "for"; "the"; "army";
      "always"; "to"; "heed"; "the"; "directions"; "of"; "the"; "party" ] ].
Definition candidate21 : list string :=
  [ "the"; "the"; "the"; "the"; "the"; "the"; "the" ].
Definition references2 : list (list string) :=
  [ [ "the"; "cat"; "is"; "on"; "the"; "mat" ];
    [ "the"; "cat"; "is"; "on"; "the"; "mat" ] ].

End Examples.

Global Instance Qeq_decision : RelDecision Qeq := Qeq_dec.
Global Instance Qlt_decision : RelDecision Qlt :=
  λ p q, match Qlt_le_dec p q with left H => left H | right H => right (Qle_not_lt _ _ H) end.

(** * The specification's reading *)

Module Spec.

(** *** Normalisation *)

(** A string of separators only. *)
Definition blank (s : string) : Prop :=
  ∀ c, c ∈ Str.chars s → Str.isspace c.

(** A string with no separator. *)
Definition solid (s : string) : Prop :=
  ∀ c, c ∈ Str.chars s → ¬ Str.isspace c.

(** What follows a word: the end of the string, or a separator. *)
Definition word_end (s : string) : Prop :=
  match s with
  | "" => True
  | String c _ => Str.isspace c
  end.

(** [splits_into s words]: [s] is the words of [words], in this order,
    each a maximal run of characters that are no separators, with
    separators before, between and after them. *)
Inductive splits_into : string → list string → Prop :=
| splits_blank (gap : string) :
    blank gap → splits_into gap []
| splits_word (gap word rest : string) (words : list string) :
    blank gap → word ≠ "" → solid word → word_end rest →
    splits_into rest words →
    splits_into (gap +:+ word +:+ rest) (word :: words).

(** A sequence of strings: a list whose elements are all [str]. *)
Definition sequence_of_strings (v : pyval) : Prop :=
  ∃ sentences : list string, v = PList (PStr <$> sentences).

(** A list, whatever it holds. *)
Definition is_list (v : pyval) : Prop := ∃ l, v = PList l.

(** *** n-gram precision *)

(** Every contiguous window of [n] tokens: one per offset
    0 .. len(s) - n, none when [s] is shorter than [n]. *)
Definition windows (s : list string) (n : nat) : list (list string) :=
  (λ i, take n (drop i s)) <$> seq 0 (length s + 1 - n).

(** How often the n-gram [g] occurs in [l]. *)
Definition occurrences (g : list string) (l : list (list string)) : Z :=
  Z.of_nat (length (filter (λ x, x = g) l)).

(** The clipping ceiling of [g]: the largest count it has in one
    reference, 0 when no reference holds it. *)
Definition ceiling (references : list (list string)) (n : nat) (g : list string) : Z :=
  foldr Z.max 0 ((λ reference, occurrences g (windows reference n)) <$> references).

Definition total (l : list Z) : Z := foldr Z.add 0 l.

(** The sum, over the distinct n-grams of the candidate, of the count
    clipped to the ceiling. *)
Definition numerator (candidate : list string) (references : list (list string)) (n : nat) : Z :=
  total ((λ g, Z.min (occurrences g (windows candidate n)) (ceiling references n g))
           <$> remove_dups (windows candidate n)).

(** The raw count of the candidate's n-grams. *)
Definition denominator (candidate : list string) (n : nat) : Z :=
  Z.of_nat (length (windows candidate n)).

(** *** Final score *)

(** The precision ratio of order [n]: 0 when the denominator is 0. *)
Definition ratio (candidate : list string) (references : list (list string)) (n : nat) : Q :=
  if decide (denominator candidate n = 0) then 0%Q
  else (inject_Z (numerator candidate references n)
        / inject_Z (denominator candidate n))%Q.

(** The ratios of the orders 1 .. max_n. *)
Definition ratios (candidate : list string) (references : list (list string)) (max_n : Z)
  : list Q :=
  ratio candidate references <$> seq 1 (Z.to_nat max_n).

(** The arithmetic mean. *)
Definition mean (l : list R) : R := (foldr Rplus 0 l / INR (length l))%R.

(** The exponential of the mean of the logarithms of the strictly
    positive ratios. *)
Definition geometric_mean (ratios : list Q) : R :=
  exp (mean ((λ p, ln (Q2R p)) <$> filter (λ p, 0 < p)%Q ratios)).

End Spec.

(** * Properties *)

(** Replaces a closed term by its value. *)
Ltac evaluate t :=
  let v := eval vm_compute in t in
  replace t with v by (vm_compute; reflexivity).

(** ** Sums *)

Lemma sum_foldl_shift (l : list Z) (a : Z) : foldl Z.add a l = a + foldl Z.add 0 l.
Proof.
  revert a. induction l as [|x l IH]; intros a; simpl; [lia|].
  rewrite (IH (a + x)), (IH (0 + x)). lia.
Qed.

Lemma sum_nil : Py.sum [] = 0.
Proof. reflexivity. Qed.

Lemma sum_cons (x : Z) (l : list Z) : Py.sum (x :: l) = x + Py.sum l.
Proof. unfold Py.sum. simpl. rewrite sum_foldl_shift. lia. Qed.

Lemma sum_Permutation (l k : list Z) : l ≡ₚ k → Py.sum l = Py.sum k.
Proof.
  induction 1 as [|x l k _ IH|x y l|l k m _ IH1 _ IH2];
    rewrite ?sum_cons; lia.
Qed.

Lemma sum_fmap_le {A} (f g : A → Z) (l : list A) :
  (∀ x, x ∈ l → f x ≤ g x) → Py.sum (f <$> l) ≤ Py.sum (g <$> l).
Proof.
  induction l as [|x l IH]; intros Hfg; [done|].
  rewrite !fmap_cons, !sum_cons.
  pose proof (Hfg x (list_elem_of_here _ _)).
  assert (Py.sum (f <$> l) ≤ Py.sum (g <$> l)).
  { apply IH. intros y Hy. apply Hfg. by apply list_elem_of_further. }
  lia.
Qed.

Lemma sum_fmap_ext {A} (f g : A → Z) (l : list A) :
  (∀ x, x ∈ l → f x = g x) → Py.sum (f <$> l) = Py.sum (g <$> l).
Proof.
  intros Hfg. f_equal. apply list_fmap_ext. intros i x Hx.
  apply Hfg. by eapply list_elem_of_lookup_2.
Qed.

Lemma sum_fmap_nonneg {A} (f : A → Z) (l : list A) :
  (∀ x, x ∈ l → 0 ≤ f x) → 0 ≤ Py.sum (f <$> l).
Proof.
  induction l as [|x l IH]; intros Hf; [done|].
  rewrite fmap_cons, sum_cons.
  pose proof (Hf x (list_elem_of_here _ _)).
  assert (0 ≤ Py.sum (f <$> l)); [|lia].
  apply IH. intros y Hy. apply Hf. by apply list_elem_of_further.
Qed.

(** ** Counters *)

Section counter_facts.

Implicit Types (c : gmap (list string) Z) (k g : list string).
Implicit Types (l : list (list string)).

Lemma occurrences_nil g : Spec.occurrences g [] = 0.
Proof. reflexivity. Qed.

Lemma occurrences_cons g x l :
  Spec.occurrences g (x :: l) =
    (if decide (x = g) then 1 else 0) + Spec.occurrences g l.
Proof.
  unfold Spec.occurrences. rewrite filter_cons.
  destruct (decide (x = g)); simpl; lia.
Qed.

Lemma occurrences_nonneg g l : 0 ≤ Spec.occurrences g l.
Proof. unfold Spec.occurrences. lia. Qed.

Lemma occurrences_not_elem g l : g ∉ l → Spec.occurrences g l = 0.
Proof.
  induction l as [|x l IH]; intros Hg; [done|].
  rewrite occurrences_cons. apply not_elem_of_cons in Hg as [? ?].
  rewrite decide_False by done. rewrite IH by done. lia.
Qed.

Lemma occurrences_elem g l : g ∈ l → 1 ≤ Spec.occurrences g l.
Proof.
  induction l as [|x l IH]; intros Hg; [by apply elem_of_nil in Hg|].
  rewrite occurrences_cons. pose proof (occurrences_nonneg g l).
  apply elem_of_cons in Hg as [->|Hg].
  - rewrite decide_True by done. lia.
  - specialize (IH Hg). destruct (decide (x = g)); lia.
Qed.

Lemma get_insert c k g v :
  Counter.get (<[k := v]> c) g = if decide (k = g) then v else Counter.get c g.
Proof.
  unfold Counter.get. rewrite lookup_insert. by destruct (decide (k = g)).
Qed.

(** Counting from a counter [c] on: the entries of the elements of [l]
    grow by their number of occurrences, the others stay. *)
Lemma count_from_lookup c l g :
  foldl (λ c k, <[k := Counter.get c k + 1]> c) c l !! g =
    if decide (g ∈ l) then Some (Counter.get c g + Spec.occurrences g l)
    else c !! g.
Proof.
  revert c. induction l as [|x l IH]; intros c.
  { rewrite decide_False; [done|]. apply not_elem_of_nil. }
  simpl. rewrite IH, occurrences_cons, get_insert.
  destruct (decide (g ∈ l)) as [Hl|Hl].
  - rewrite (decide_True (P := g ∈ x :: l)) by (by apply list_elem_of_further).
    destruct (decide (x = g)) as [->|]; f_equal; lia.
  - rewrite (occurrences_not_elem g l) by done.
    destruct (decide (x = g)) as [->|Hx].
    + rewrite (decide_True (P := g ∈ g :: l)) by apply list_elem_of_here.
      rewrite lookup_insert_eq. f_equal; lia.
    + rewrite (decide_False (P := g ∈ x :: l)).
      * by rewrite lookup_insert_ne.
      * intros [?|?]%elem_of_cons; congruence.
Qed.

Lemma of_list_lookup l g :
  Counter.of_list l !! g =
    if decide (g ∈ l) then Some (Spec.occurrences g l) else None.
Proof.
  unfold Counter.of_list. rewrite count_from_lookup.
  destruct (decide (g ∈ l)); [|done].
  unfold Counter.get. rewrite lookup_empty. simpl. f_equal; lia.
Qed.

Lemma of_list_get l g : Counter.get (Counter.of_list l) g = Spec.occurrences g l.
Proof.
  unfold Counter.get. rewrite of_list_lookup.
  destruct (decide (g ∈ l)); [done|]. simpl.
  by rewrite occurrences_not_elem.
Qed.

Lemma of_list_items l :
  map_to_list (Counter.of_list l)
    ≡ₚ (λ g, (g, Spec.occurrences g l)) <$> remove_dups l.
Proof.
  apply NoDup_Permutation.
  - apply NoDup_map_to_list.
  - apply NoDup_fmap_2; [|apply NoDup_remove_dups].
    intros g g' Heq. by inversion Heq.
  - intros [g v]. rewrite elem_of_map_to_list, of_list_lookup, list_elem_of_fmap.
    split.
    + destruct (decide (g ∈ l)) as [Hg|]; [|done].
      intros [= <-]. exists g. by rewrite elem_of_remove_dups.
    + intros (g' & Heq & Hg). rewrite elem_of_remove_dups in Hg.
      inversion Heq; subst. by rewrite decide_True.
Qed.

(** Writing one entry changes the sum of the values by the difference. *)
Lemma sum_values_insert c k v :
  Py.sum (Counter.values (<[k := v]> c)) =
    Py.sum (Counter.values c) - Counter.get c k + v.
Proof.
  assert (Hfresh : ∀ d : gmap (list string) Z, d !! k = None →
            ∀ w, Py.sum (Counter.values (<[k := w]> d)) = w + Py.sum (Counter.values d)).
  { intros d Hd w. unfold Counter.values.
    rewrite (sum_Permutation _ (w :: (map_to_list d).*2)); [by rewrite sum_cons|].
    by rewrite map_to_list_insert. }
  unfold Counter.get. destruct (c !! k) as [x|] eqn:Hk; simpl.
  - rewrite <- (insert_delete_id c k x Hk) at 2.
    rewrite <- (insert_delete_eq c).
    rewrite !Hfresh by apply lookup_delete_eq. lia.
  - rewrite Hfresh by done. lia.
Qed.

Lemma count_from_sum c l :
  Py.sum (Counter.values (foldl (λ c k, <[k := Counter.get c k + 1]> c) c l)) =
    Py.sum (Counter.values c) + Z.of_nat (length l).
Proof.
  revert c. induction l as [|x l IH]; intros c; simpl; [lia|].
  rewrite IH, sum_values_insert. lia.
Qed.

Lemma of_list_sum l :
  Py.sum (Counter.values (Counter.of_list l)) = Z.of_nat (length l).
Proof.
  unfold Counter.of_list. rewrite count_from_sum.
  unfold Counter.values. by rewrite map_to_list_empty.
Qed.

(** A dictionary built by writing the entries of a list with distinct
    keys holds one value per entry. *)
Lemma sum_values_build (f : list string → Z → Z) (its : list (list string * Z)) c :
  NoDup its.*1 →
  (∀ k, k ∈ its.*1 → c !! k = None) →
  Py.sum (Counter.values (foldl (λ d '(k, v), <[k := f k v]> d) c its)) =
    Py.sum (Counter.values c) + Py.sum ((λ '(k, v), f k v) <$> its).
Proof.
  revert c. induction its as [|[k v] its IH]; intros c Hnd Hc.
  { simpl. rewrite sum_nil. lia. }
  rewrite fmap_cons in Hnd. apply NoDup_cons in Hnd as [Hk Hnd].
  rewrite fmap_cons. cbn [foldl]. rewrite IH; [|done|].
  - rewrite sum_values_insert, sum_cons. unfold Counter.get.
    rewrite (Hc k) by (rewrite fmap_cons; apply list_elem_of_here).
    cbn [from_option]. lia.
  - intros k' Hk'. rewrite lookup_insert_ne by (intros ->; done).
    apply Hc. rewrite fmap_cons. by apply list_elem_of_further.
Qed.

End counter_facts.

(** ** Windows *)

Section window_facts.

Implicit Types (s g : list string) (n : nat).

Lemma windows_length s n : length (Spec.windows s n) = (length s + 1 - n)%nat.
Proof. unfold Spec.windows. by rewrite length_fmap, length_seq. Qed.

(** The windows are the contiguous pieces of [n] tokens. *)
Lemma elem_of_windows s n g :
  g ∈ Spec.windows s n ↔ length g = n ∧ ∃ pre post, s = pre ++ g ++ post.
Proof.
  unfold Spec.windows. rewrite list_elem_of_fmap. split.
  - intros (i & -> & Hi). apply elem_of_seq in Hi. split.
    + rewrite length_take, length_drop. lia.
    + exists (take i s), (drop n (drop i s)).
      by rewrite (take_drop n (drop i s)), take_drop.
  - intros (Hn & pre & post & ->). exists (length pre). split.
    + rewrite drop_app_length. by rewrite <- Hn, take_app_length.
    + apply elem_of_seq. rewrite !length_app. lia.
Qed.

(** The comprehension of the notebook lists the windows. *)
Lemma n_grams_windows s (n : Z) : 1 ≤ n → n_grams s n = Spec.windows s (Z.to_nat n).
Proof.
  intros Hn. unfold n_grams, Spec.windows, Py.range, Py.len.
  rewrite <- list_fmap_compose.
  replace (Z.to_nat (Z.of_nat (length s) - n + 1))
    with (length s + 1 - Z.to_nat n)%nat by lia.
  apply list_fmap_ext. intros j i Hi.
  apply list_elem_of_lookup_2, elem_of_seq in Hi. simpl.
  unfold Py.slice, Py.adjust.
  rewrite !(proj2 (Z.ltb_ge _ 0)) by lia.
  f_equal; [|f_equal]; lia.
Qed.

End window_facts.

(** ** The running maximum over the references *)

Section ceiling_facts.

Implicit Types (acc rc : gmap (list string) Z) (g : list string).

Lemma elem_of_keys rc g : g ∈ Counter.keys rc ↔ is_Some (rc !! g).
Proof.
  unfold Counter.keys. rewrite list_elem_of_fmap. split.
  - intros ([g' v] & -> & Hv). apply elem_of_map_to_list in Hv. by exists v.
  - intros [v Hv]. exists (g, v). split; [done|]. by apply elem_of_map_to_list.
Qed.

Lemma raise_step_get rc acc (ks : list (list string)) g :
  Counter.get
    (foldl (λ acc n_gram,
              <[n_gram := Z.max (Counter.get acc n_gram) (Counter.get rc n_gram)]> acc)
           acc ks) g =
    if decide (g ∈ ks) then Z.max (Counter.get acc g) (Counter.get rc g)
    else Counter.get acc g.
Proof.
  revert acc. induction ks as [|x ks IH]; intros acc.
  { rewrite decide_False; [done|]. apply not_elem_of_nil. }
  cbn [foldl]. rewrite IH, get_insert.
  destruct (decide (g ∈ ks)) as [Hg|Hg].
  - rewrite (decide_True (P := g ∈ x :: ks)) by (by apply list_elem_of_further).
    destruct (decide (x = g)) as [->|]; lia.
  - destruct (decide (x = g)) as [->|Hx].
    + by rewrite (decide_True (P := g ∈ g :: ks)) by apply list_elem_of_here.
    + rewrite (decide_False (P := g ∈ x :: ks)); [done|].
      intros [?|?]%elem_of_cons; congruence.
Qed.

Lemma raise_max_get acc (l : list (list string)) g :
  0 ≤ Counter.get acc g →
  Counter.get (raise_max acc (Counter.of_list l)) g =
    Z.max (Counter.get acc g) (Spec.occurrences g l).
Proof.
  intros Hacc. unfold raise_max. rewrite raise_step_get, of_list_get.
  destruct (decide (g ∈ Counter.keys (Counter.of_list l))) as [|Hg]; [done|].
  rewrite elem_of_keys, of_list_lookup in Hg.
  destruct (decide (g ∈ l)) as [|Hl]; [by destruct Hg|].
  rewrite occurrences_not_elem by done. lia.
Qed.

Lemma max_reference_from_get acc (references : list (list string)) (n : Z) g :
  1 ≤ n → 0 ≤ Counter.get acc g →
  Counter.get
    (foldl (λ acc reference, raise_max acc (Counter.of_list (n_grams reference n)))
           acc references) g =
    Z.max (Counter.get acc g) (Spec.ceiling references (Z.to_nat n) g).
Proof.
  intros Hn. revert acc.
  induction references as [|r references IH]; intros acc Hacc.
  { unfold Spec.ceiling. simpl. lia. }
  cbn [foldl]. rewrite IH.
  - rewrite raise_max_get by done. rewrite n_grams_windows by done.
    unfold Spec.ceiling. rewrite fmap_cons. cbn [foldr]. lia.
  - rewrite raise_max_get by done. lia.
Qed.

Lemma max_reference_get (references : list (list string)) (n : Z) g :
  1 ≤ n →
  Counter.get (max_reference_n_grams references n) g =
    Spec.ceiling references (Z.to_nat n) g.
Proof.
  intros Hn. unfold max_reference_n_grams.
  rewrite max_reference_from_get by done.
  unfold Counter.get at 1. rewrite lookup_empty. cbn [from_option].
  assert (0 ≤ Spec.ceiling references (Z.to_nat n) g); [|lia].
  unfold Spec.ceiling. clear.
  induction references as [|r references IH]; [done|].
  rewrite fmap_cons. cbn [foldr]. lia.
Qed.

End ceiling_facts.

(** ** The n-gram precision computes the specification's fraction *)

Lemma sum_total (l : list Z) : Py.sum l = Spec.total l.
Proof.
  induction l as [|x l IH]; [done|].
  rewrite sum_cons, IH. reflexivity.
Qed.

Lemma clipped_counts_sum (l : list (list string)) (max_ref : gmap (list string) Z) :
  Py.sum (Counter.values (clipped_counts (Counter.of_list l) max_ref)) =
    Py.sum ((λ g, Z.min (Spec.occurrences g l) (Counter.get max_ref g))
              <$> remove_dups l).
Proof.
  unfold clipped_counts.
  rewrite (sum_values_build (λ ng count, Z.min count (Counter.get max_ref ng))).
  - unfold Counter.values at 1. rewrite map_to_list_empty, fmap_nil, sum_nil.
    rewrite (sum_Permutation _ _ (fmap_Permutation _ _ _ (of_list_items l))).
    by rewrite <- list_fmap_compose.
  - apply NoDup_fst_map_to_list.
  - intros k _. apply lookup_empty.
Qed.

Lemma n_gram_precision_spec candidate references (n : Z) :
  1 ≤ n →
  n_gram_precision candidate references n =
    Ok (Spec.numerator candidate references (Z.to_nat n),
        Spec.denominator candidate (Z.to_nat n)).
Proof.
  intros Hn. unfold n_gram_precision.
  rewrite (proj2 (Z.ltb_ge n 1)) by lia. cbv zeta.
  rewrite clipped_counts_sum, of_list_sum, n_grams_windows by done.
  unfold Spec.numerator, Spec.denominator. rewrite <- sum_total.
  do 2 f_equal. apply sum_fmap_ext. intros g _.
  by rewrite max_reference_get.
Qed.

Lemma numerator_le_denominator candidate references n :
  0 ≤ Spec.numerator candidate references n ≤ Spec.denominator candidate n.
Proof.
  unfold Spec.numerator, Spec.denominator. rewrite <- sum_total.
  set (l := Spec.windows candidate n). split.
  - apply sum_fmap_nonneg. intros g _.
    pose proof (occurrences_nonneg g l).
    assert (0 ≤ Spec.ceiling references n g); [|lia].
    unfold Spec.ceiling. generalize references as rs.
    induction rs as [|r rs IH]; [done|]. rewrite fmap_cons. cbn [foldr]. lia.
  - rewrite <- (of_list_sum l). unfold Counter.values.
    rewrite (sum_Permutation _ _ (fmap_Permutation _ _ _ (of_list_items l))).
    rewrite <- list_fmap_compose. apply sum_fmap_le. intros g _. simpl. lia.
Qed.

(** The examples of the notebook, preprocessed. *)
Lemma examples_preprocessed :
  preprocess_text (PList [PStr Examples.sentence11]) = Ok [Examples.candidate11]
  ∧ preprocess_text (PList [PStr Examples.sentence12]) = Ok [Examples.candidate12]
  ∧ preprocess_text (PList (PStr <$> Examples.sentences1)) = Ok Examples.references1
  ∧ preprocess_text (PList [PStr Examples.sentence21]) = Ok [Examples.candidate21]
  ∧ preprocess_text (PList (PStr <$> Examples.sentences2)) = Ok Examples.references2.
Proof. repeat split; vm_compute; reflexivity. Qed.

(** The three assertions of the notebook on [n_gram_precision]. *)
Lemma examples_precision :
  n_gram_precision Examples.candidate11 Examples.references1 1 = Ok (17, 18)
  ∧ n_gram_precision Examples.candidate12 Examples.references1 1 = Ok (8, 14)
  ∧ n_gram_precision Examples.candidate21 Examples.references2 1 = Ok (2, 7).
Proof. repeat split; vm_compute; reflexivity. Qed.

(** ** The clipping ceiling is a maximum over the references *)

Section ceiling_is_max.

Implicit Types (references : list (list string)) (n : nat) (g : list string).

Lemma ceiling_cons r references n g :
  Spec.ceiling (r :: references) n g =
    Z.max (Spec.occurrences g (Spec.windows r n)) (Spec.ceiling references n g).
Proof. reflexivity. Qed.

Lemma ceiling_nonneg references n g : 0 ≤ Spec.ceiling references n g.
Proof.
  induction references as [|r references IH]; [done|].
  rewrite ceiling_cons. lia.
Qed.

Lemma ceiling_upper_bound references n g r :
  r ∈ references → Spec.occurrences g (Spec.windows r n) ≤ Spec.ceiling references n g.
Proof.
  induction references as [|r' references IH]; intros Hr.
  - by apply elem_of_nil in Hr.
  - rewrite ceiling_cons. apply elem_of_cons in Hr as [->|Hr]; [lia|].
    specialize (IH Hr). lia.
Qed.

Lemma ceiling_attained references n g :
  references ≠ [] →
  ∃ r, r ∈ references ∧ Spec.ceiling references n g = Spec.occurrences g (Spec.windows r n).
Proof.
  induction references as [|r references IH]; intros Hne; [done|].
  rewrite ceiling_cons. destruct references as [|r' references].
  - exists r. split; [apply list_elem_of_here|].
    pose proof (occurrences_nonneg g (Spec.windows r n)).
    change (Spec.ceiling [] n g) with 0. lia.
  - destruct IH as (r0 & Hr0 & Hmax); [done|].
    destruct (Z.max_spec (Spec.occurrences g (Spec.windows r n))
                (Spec.ceiling (r' :: references) n g)) as [[_ ->]|[_ ->]].
    + exists r0. split; [by apply list_elem_of_further|done].
    + exists r. split; [apply list_elem_of_here|done].
Qed.

Lemma ceiling_absent references n g :
  (∀ r, r ∈ references → g ∉ Spec.windows r n) → Spec.ceiling references n g = 0.
Proof.
  induction references as [|r references IH]; intros Habs; [done|].
  rewrite ceiling_cons, IH.
  - rewrite occurrences_not_elem; [done|]. apply Habs, list_elem_of_here.
  - intros r' Hr'. by apply Habs, list_elem_of_further.
Qed.

Lemma ceiling_Permutation references references' n g :
  references ≡ₚ references' →
  Spec.ceiling references n g = Spec.ceiling references' n g.
Proof.
  induction 1 as [|r l k _ IH|r r' l|l k m _ IH1 _ IH2];
    rewrite ?ceiling_cons; lia.
Qed.

Lemma numerator_Permutation candidate references references' n :
  references ≡ₚ references' →
  Spec.numerator candidate references n = Spec.numerator candidate references' n.
Proof.
  intros Hperm. unfold Spec.numerator. rewrite <- !sum_total.
  apply sum_fmap_ext. intros g _. by rewrite (ceiling_Permutation _ _ _ _ Hperm).
Qed.

End ceiling_is_max.

Lemma denominator_length candidate (n : Z) :
  1 ≤ n → Spec.denominator candidate (Z.to_nat n) = Z.max 0 (Py.len candidate - n + 1).
Proof.
  intros Hn. unfold Spec.denominator, Py.len. rewrite windows_length. lia.
Qed.

(** * The n-gram precision counter *)

(** C1: for every candidate, every collection of references and every
    order n >= 1, [n_gram_precision] returns the pair whose denominator is
    the number of contiguous windows of n tokens of the candidate and whose
    numerator is the sum, over the distinct n-grams of the candidate, of the
    minimum of the candidate's count and the largest count in one reference;
    an n-gram that no reference holds is clipped to zero; on the worked
    example with three references and n = 1 the result is (17, 18). *)
Theorem ngram_precision_clipped_fraction :
  (∀ candidate references n,
     1 ≤ n →
     n_gram_precision candidate references n =
       Ok (Spec.numerator candidate references (Z.to_nat n),
           Spec.denominator candidate (Z.to_nat n)))
  ∧ (∀ s n g,
       g ∈ Spec.windows s n ↔ length g = n ∧ ∃ pre post, s = pre ++ g ++ post)
  ∧ (∀ references n g,
       (∀ r, r ∈ references →
          Spec.occurrences g (Spec.windows r n) ≤ Spec.ceiling references n g)
       ∧ (references ≠ [] →
          ∃ r, r ∈ references
               ∧ Spec.ceiling references n g = Spec.occurrences g (Spec.windows r n)))
  ∧ (∀ candidate references n g,
       (∀ r, r ∈ references → g ∉ Spec.windows r n) →
       Z.min (Spec.occurrences g (Spec.windows candidate n))
             (Spec.ceiling references n g) = 0)
  ∧ n_gram_precision Examples.candidate11 Examples.references1 1 = Ok (17, 18).
Proof.
  split; [|split; [|split; [|split]]].
  - intros candidate references n Hn. by apply n_gram_precision_spec.
  - apply elem_of_windows.
  - intros references n g. split.
    + intros r Hr. by apply ceiling_upper_bound.
    + apply ceiling_attained.
  - intros candidate references n g Habs. rewrite ceiling_absent by done.
    pose proof (occurrences_nonneg g (Spec.windows candidate n)). lia.
  - vm_compute. reflexivity.
Qed.

Lemma ngram_precision_clipped_fraction_witness :
  n_gram_precision Examples.candidate21 Examples.references2 2 =
    Ok (Spec.numerator Examples.candidate21 Examples.references2 (Z.to_nat 2),
        Spec.denominator Examples.candidate21 (Z.to_nat 2)).
Proof. apply (proj1 ngram_precision_clipped_fraction). lia. Defined.

(** C2: for every candidate, every collection of references and every
    order n >= 1, [n_gram_precision] returns a pair whose numerator is at
    most its denominator, and whose denominator is
    max(0, len(candidate) - n + 1): 0 when the candidate is shorter than n. *)
Theorem ngram_precision_numerator_le_denominator
    (candidate : list string) (references : list (list string)) (n : Z) :
  1 ≤ n →
  ∃ numerator denominator,
    n_gram_precision candidate references n = Ok (numerator, denominator)
    ∧ numerator ≤ denominator
    ∧ denominator = Z.max 0 (Py.len candidate - n + 1)
    ∧ (Py.len candidate < n → denominator = 0).
Proof.
  intros Hn. eexists _, _. split; [by apply n_gram_precision_spec|].
  rewrite denominator_length by done.
  pose proof (numerator_le_denominator candidate references (Z.to_nat n)) as Hle.
  rewrite denominator_length in Hle by done.
  repeat split; lia.
Qed.

Lemma ngram_precision_numerator_le_denominator_witness :
  ∃ numerator denominator,
    n_gram_precision Examples.candidate21 Examples.references2 3
      = Ok (numerator, denominator)
    ∧ numerator ≤ denominator
    ∧ denominator = Z.max 0 (Py.len Examples.candidate21 - 3 + 1)
    ∧ (Py.len Examples.candidate21 < 3 → denominator = 0).
Proof.
  apply (ngram_precision_numerator_le_denominator
           Examples.candidate21 Examples.references2 3).
  lia.
Defined.

(** C5: for every candidate and every order n >= 1, [n_gram_precision]
    returns the same pair on a collection of references and on any
    permutation of it. *)
Theorem ngram_precision_reference_order
    (candidate : list string) (references references' : list (list string)) (n : Z) :
  1 ≤ n →
  references ≡ₚ references' →
  ∃ fraction,
    n_gram_precision candidate references n = Ok fraction
    ∧ n_gram_precision candidate references' n = Ok fraction.
Proof.
  intros Hn Hperm. eexists. split; [by apply n_gram_precision_spec|].
  rewrite n_gram_precision_spec by done.
  by rewrite (numerator_Permutation _ _ _ _ Hperm).
Qed.

Lemma ngram_precision_reference_order_witness :
  ∃ fraction,
    n_gram_precision Examples.candidate11
      [ ["it"; "is"; "a"; "guide"]; ["the"; "party"; "of"; "the"; "army"] ] 1
      = Ok fraction
    ∧ n_gram_precision Examples.candidate11
        [ ["the"; "party"; "of"; "the"; "army"]; ["it"; "is"; "a"; "guide"] ] 1
        = Ok fraction.
Proof.
  apply ngram_precision_reference_order; [lia|].
  apply Permutation_swap.
Defined.

(** C9: [n_gram_precision] raises its order error exactly when n < 1; for
    every n >= 1, whatever the candidate and the references, it returns a
    pair. *)
Theorem ngram_precision_invalid_order
    (candidate : list string) (references : list (list string)) (n : Z) :
  (n_gram_precision candidate references n = Raise ValueError ↔ n < 1)
  ∧ (1 ≤ n → ∃ fraction, n_gram_precision candidate references n = Ok fraction)
  ∧ (∀ e, n_gram_precision candidate references n = Raise e → e = ValueError).
Proof.
  unfold n_gram_precision. destruct (Z.ltb_spec n 1) as [Hn|Hn].
  - split; [|split].
    + by split.
    + lia.
    + by intros e [= <-].
  - split; [|split].
    + split; [done|lia].
    + intros _. by eexists.
    + done.
Qed.

Lemma ngram_precision_invalid_order_witness :
  (∃ fraction,
     n_gram_precision Examples.candidate21 Examples.references2 1 = Ok fraction)
  ∧ n_gram_precision Examples.candidate21 Examples.references2 0 = Raise ValueError.
Proof.
  split.
  - apply (ngram_precision_invalid_order
             Examples.candidate21 Examples.references2 1). lia.
  - apply (ngram_precision_invalid_order
             Examples.candidate21 Examples.references2 0). lia.
Defined.

(** * The normaliser *)

Section string_facts.

Implicit Types (s t word rest : string) (c : ascii).

Lemma str_app_cons c s t : String c s +:+ t = String c (s +:+ t).
Proof. reflexivity. Qed.

Lemma str_app_nil_r s : s +:+ "" = s.
Proof. induction s as [|c s IH]; [done|]. by rewrite str_app_cons, IH. Qed.

Lemma str_app_assoc s t u : (s +:+ t) +:+ u = s +:+ t +:+ u.
Proof. induction s as [|c s IH]; [done|]. by rewrite !str_app_cons, IH. Qed.

Lemma str_app_length s t :
  String.length (s +:+ t) = (String.length s + String.length t)%nat.
Proof.
  induction s as [|c s IH]; [done|]. rewrite str_app_cons. cbn. by rewrite IH.
Qed.

Lemma blank_nil : Spec.blank "".
Proof. intros c Hc. by apply elem_of_nil in Hc. Qed.

Lemma blank_cons c s : Str.isspace c → Spec.blank s → Spec.blank (String c s).
Proof.
  intros Hc Hs c' Hc'. cbn in Hc'. apply elem_of_cons in Hc' as [->|Hc']; [done|].
  by apply Hs.
Qed.

Lemma solid_nil : Spec.solid "".
Proof. intros c Hc. by apply elem_of_nil in Hc. Qed.

Lemma solid_cons c s : ¬ Str.isspace c → Spec.solid s → Spec.solid (String c s).
Proof.
  intros Hc Hs c' Hc'. cbn in Hc'. apply elem_of_cons in Hc' as [->|Hc']; [done|].
  by apply Hs.
Qed.

(** A separator in front of a string adds no word. *)
Lemma splits_into_separator c s words :
  Str.isspace c → Spec.splits_into s words → Spec.splits_into (String c s) words.
Proof.
  intros Hc Hs. destruct Hs as [gap Hgap|gap word rest words Hgap Hne Hsolid Hend Hs].
  - apply Spec.splits_blank. by apply blank_cons.
  - change (String c (gap +:+ word +:+ rest)) with (String c gap +:+ word +:+ rest).
    apply Spec.splits_word; try done. by apply blank_cons.
Qed.

(** Once in a word, the scan reads on to the end of the word. *)
Lemma split_scan_word s word :
  word ≠ "" →
  ∃ tail rest,
    s = tail +:+ rest ∧ Spec.solid tail ∧ Spec.word_end rest
    ∧ Str.split_scan word s = (word +:+ tail) :: Str.split_scan "" rest.
Proof.
  revert word. induction s as [|c s IH]; intros word Hword.
  - exists "", "". rewrite (str_app_nil_r word). cbn [Str.split_scan].
    rewrite (decide_False (P := word = "")) by done.
    rewrite (decide_True (P := "" = "")) by done.
    repeat split; auto using solid_nil.
  - cbn [Str.split_scan]. destruct (Str.isspace c) eqn:Hc.
    + exists "", (String c s). rewrite (str_app_nil_r word).
      cbn [Str.split_scan]. rewrite Hc.
      rewrite (decide_False (P := word = "")) by done.
      rewrite (decide_True (P := "" = "")) by done.
      repeat split; auto using solid_nil. cbn. by rewrite Hc.
    + destruct (IH (word +:+ String c "")) as (tail & rest & -> & Htail & Hrest & Hscan).
      { by destruct word. }
      exists (String c tail), rest. rewrite Hscan, str_app_assoc.
      repeat split; try done.
      apply solid_cons; [|done]. by apply Is_true_false_2.
Qed.

Lemma split_scan_splits (k : nat) s :
  (String.length s ≤ k)%nat → Spec.splits_into s (Str.split_scan "" s).
Proof.
  revert s. induction k as [|k IH]; intros s Hk.
  - destruct s; [|cbn in Hk; lia]. apply Spec.splits_blank, blank_nil.
  - destruct s as [|c s]; [apply Spec.splits_blank, blank_nil|].
    cbn in Hk. cbn [Str.split_scan]. destruct (Str.isspace c) eqn:Hc.
    + rewrite decide_True by done. apply splits_into_separator; [by rewrite Hc|].
      apply IH. lia.
    + change ("" +:+ String c "") with (String c "").
      destruct (split_scan_word s (String c "")) as
        (tail & rest & -> & Htail & Hrest & ->); [done|].
      change (String c (tail +:+ rest)) with ("" +:+ String c tail +:+ rest).
      apply Spec.splits_word; try done.
      * apply blank_nil.
      * apply solid_cons; [|done]. by apply Is_true_false_2.
      * apply IH. rewrite str_app_length in Hk. lia.
Qed.

Lemma split_splits s : Spec.splits_into s (Str.split s).
Proof. by apply (split_scan_splits (String.length s)). Qed.

(** The words of a string are determined: [splits_into] describes
    [Str.split] and nothing else. *)
Lemma split_scan_blank gap s :
  Spec.blank gap → Str.split_scan "" (gap +:+ s) = Str.split_scan "" s.
Proof.
  induction gap as [|c gap IH]; intros Hgap; [done|].
  rewrite str_app_cons. cbn [Str.split_scan].
  assert (Str.isspace c = true) as ->.
  { apply Is_true_true_1, Hgap. cbn. apply list_elem_of_here. }
  rewrite decide_True by done. apply IH.
  intros c' Hc'. apply Hgap. cbn. by apply list_elem_of_further.
Qed.

Lemma split_scan_solid acc word s :
  Spec.solid word → Str.split_scan acc (word +:+ s) = Str.split_scan (acc +:+ word) s.
Proof.
  revert acc. induction word as [|c word IH]; intros acc Hword.
  { by rewrite str_app_nil_r. }
  rewrite str_app_cons. cbn [Str.split_scan].
  assert (Str.isspace c = false) as ->.
  { apply Is_true_false_1, Hword. cbn. apply list_elem_of_here. }
  rewrite IH.
  - by rewrite str_app_assoc.
  - intros c' Hc'. apply Hword. cbn. by apply list_elem_of_further.
Qed.

Lemma split_scan_word_end acc rest :
  acc ≠ "" → Spec.word_end rest →
  Str.split_scan acc rest = acc :: Str.split_scan "" rest.
Proof.
  intros Hacc Hrest. destruct rest as [|c rest]; cbn [Str.split_scan].
  - rewrite (decide_False (P := acc = "")) by done.
    by rewrite (decide_True (P := "" = "")).
  - cbn in Hrest. apply Is_true_true_1 in Hrest. rewrite Hrest.
    rewrite (decide_False (P := acc = "")) by done.
    by rewrite (decide_True (P := "" = "")).
Qed.

Lemma splits_into_unique s words : Spec.splits_into s words → words = Str.split s.
Proof.
  unfold Str.split.
  induction 1 as [gap Hgap|gap word rest words Hgap Hne Hsolid Hend _ IH].
  - rewrite <- (str_app_nil_r gap). by rewrite split_scan_blank.
  - rewrite split_scan_blank, split_scan_solid by done.
    change ("" +:+ word) with word.
    rewrite split_scan_word_end by done. by rewrite IH.
Qed.

(** [clean_word] keeps the alphanumeric characters, each in lowercase. *)
Lemma chars_join_lower (l : list ascii) :
  Str.chars (Str.join (Str.lower <$> l)) = Str.to_lower <$> l.
Proof.
  induction l as [|c l IH]; [done|].
  rewrite !fmap_cons.
  change (Str.join (Str.lower c :: (Str.lower <$> l)))
    with (String (Str.to_lower c) (Str.join (Str.lower <$> l))).
  cbn [Str.chars]. by rewrite IH.
Qed.

Lemma clean_word_chars word :
  Str.chars (clean_word word) =
    Str.to_lower <$> filter (λ c, Str.isalnum c) (Str.chars word).
Proof. apply chars_join_lower. Qed.

Lemma clean_word_no_alnum word :
  (∀ c, c ∈ Str.chars word → ¬ Str.isalnum c) → clean_word word = "".
Proof.
  intros Hword. unfold clean_word.
  assert (filter (λ c, Str.isalnum c) (Str.chars word) = []) as ->; [|done].
  induction word as [|c word IH]; [done|]. cbn [Str.chars].
  rewrite filter_cons_False.
  - apply IH. intros c' Hc'. apply Hword. cbn. by apply list_elem_of_further.
  - apply Hword. cbn. apply list_elem_of_here.
Qed.

Lemma preprocess_text_strings (sentences : list string) :
  preprocess_text (PList (PStr <$> sentences)) = Ok (tokens <$> sentences).
Proof.
  unfold preprocess_text.
  induction sentences as [|sentence sentences IH]; [done|].
  rewrite !fmap_cons. cbn [mapM]. rewrite IH. reflexivity.
Qed.

End string_facts.

(** ** The normaliser, on any alphabet *)

Section alphabet_facts.

Context {char : Type}.
Variable isspace isalnum : char → bool.
Variable lower : char → list char.

Implicit Types (s word rest gap : list char) (c : char).

Local Abbreviation split_scan := (Unicode.split_scan isspace).
Local Abbreviation splits_into := (Unicode.splits_into isspace).
Local Abbreviation blank := (Unicode.blank isspace).
Local Abbreviation solid := (Unicode.solid isspace).
Local Abbreviation word_end := (Unicode.word_end isspace).
Local Abbreviation clean_word := (Unicode.clean_word isalnum lower).
Local Abbreviation cleaned := (Unicode.cleaned isalnum lower).

Lemma ublank_nil : blank [].
Proof. intros c Hc. by apply elem_of_nil in Hc. Qed.

Lemma ublank_cons c s : isspace c → blank s → blank (c :: s).
Proof.
  intros Hc Hs c' Hc'. apply elem_of_cons in Hc' as [->|Hc']; [done|]. by apply Hs.
Qed.

Lemma usolid_nil : solid [].
Proof. intros c Hc. by apply elem_of_nil in Hc. Qed.

Lemma usolid_cons c s : ¬ isspace c → solid s → solid (c :: s).
Proof.
  intros Hc Hs c' Hc'. apply elem_of_cons in Hc' as [->|Hc']; [done|]. by apply Hs.
Qed.

(** The scan with a word in hand. *)
Lemma usplit_scan_open word s :
  word ≠ [] →
  split_scan word s =
    match s with
    | [] => [word]
    | c :: rest =>
        if isspace c then word :: split_scan [] rest
        else split_scan (word ++ [c]) rest
    end.
Proof. intros Hword. destruct s as [|c rest]; by destruct word. Qed.

(** A separator in front of a string adds no word. *)
Lemma usplits_into_separator c s words :
  isspace c → splits_into s words → splits_into (c :: s) words.
Proof.
  intros Hc Hs. destruct Hs as [gap Hgap|gap word rest words Hgap Hne Hsolid Hend Hs].
  - apply Unicode.splits_blank. by apply ublank_cons.
  - change (c :: gap ++ word ++ rest) with ((c :: gap) ++ word ++ rest).
    apply Unicode.splits_word; try done. by apply ublank_cons.
Qed.

(** Once in a word, the scan reads on to the end of the word. *)
Lemma usplit_scan_word s word :
  word ≠ [] →
  ∃ tail rest,
    s = tail ++ rest ∧ solid tail ∧ word_end rest
    ∧ split_scan word s = (word ++ tail) :: split_scan [] rest.
Proof.
  revert word. induction s as [|c s IH]; intros word Hword.
  - exists [], []. rewrite usplit_scan_open, (app_nil_r word) by done.
    repeat split; auto using usolid_nil.
  - rewrite usplit_scan_open by done. destruct (isspace c) eqn:Hc.
    + exists [], (c :: s). rewrite (app_nil_r word). cbn [Unicode.split_scan]. rewrite Hc.
      repeat split; auto using usolid_nil. cbn. by rewrite Hc.
    + destruct (IH (word ++ [c])) as (tail & rest & -> & Htail & Hrest & Hscan).
      { by destruct word. }
      exists (c :: tail), rest. rewrite Hscan, <- app_assoc.
      repeat split; try done.
      apply usolid_cons; [|done]. by apply Is_true_false_2.
Qed.

Lemma usplit_scan_splits (k : nat) s :
  (length s ≤ k)%nat → splits_into s (split_scan [] s).
Proof.
  revert s. induction k as [|k IH]; intros s Hk.
  - destruct s; [|cbn in Hk; lia]. apply Unicode.splits_blank, ublank_nil.
  - destruct s as [|c s]; [apply Unicode.splits_blank, ublank_nil|].
    cbn in Hk. cbn [Unicode.split_scan]. destruct (isspace c) eqn:Hc.
    + apply usplits_into_separator; [by rewrite Hc|]. apply IH. lia.
    + destruct (usplit_scan_word s ([] ++ [c])) as
        (tail & rest & -> & Htail & Hrest & ->); [done|].
      change (c :: tail ++ rest) with ([] ++ (c :: tail) ++ rest).
      apply Unicode.splits_word; try done.
      * apply ublank_nil.
      * apply usolid_cons; [|done]. by apply Is_true_false_2.
      * apply IH. rewrite length_app in Hk. lia.
Qed.

Lemma usplit_splits s : splits_into s (Unicode.split isspace s).
Proof. by apply (usplit_scan_splits (length s)). Qed.

Lemma usplit_scan_blank gap s : blank gap → split_scan [] (gap ++ s) = split_scan [] s.
Proof.
  induction gap as [|c gap IH]; intros Hgap; [done|].
  cbn [app Unicode.split_scan].
  assert (isspace c = true) as ->.
  { apply Is_true_true_1, Hgap, list_elem_of_here. }
  apply IH. intros c' Hc'. by apply Hgap, list_elem_of_further.
Qed.

Lemma usplit_scan_solid acc word s :
  solid word → split_scan acc (word ++ s) = split_scan (acc ++ word) s.
Proof.
  revert acc. induction word as [|c word IH]; intros acc Hword.
  { by rewrite app_nil_r. }
  cbn [app Unicode.split_scan].
  assert (isspace c = false) as ->.
  { apply Is_true_false_1, Hword, list_elem_of_here. }
  rewrite IH.
  - by rewrite <- app_assoc.
  - intros c' Hc'. by apply Hword, list_elem_of_further.
Qed.

Lemma usplit_scan_word_end acc rest :
  acc ≠ [] → word_end rest → split_scan acc rest = acc :: split_scan [] rest.
Proof.
  intros Hacc Hrest. rewrite usplit_scan_open by done.
  destruct rest as [|c rest]; [done|].
  cbn in Hrest. apply Is_true_true_1 in Hrest.
  cbn [Unicode.split_scan]. by rewrite Hrest.
Qed.

(** The words of a string are determined. *)
Lemma usplits_into_unique s words :
  splits_into s words → words = Unicode.split isspace s.
Proof.
  unfold Unicode.split.
  induction 1 as [gap Hgap|gap word rest words Hgap Hne Hsolid Hend _ IH].
  - rewrite <- (app_nil_r gap). by rewrite usplit_scan_blank.
  - rewrite usplit_scan_blank, usplit_scan_solid by done.
    rewrite app_nil_l, usplit_scan_word_end by done. by rewrite IH.
Qed.

(** [clean_word] computes the relation [cleaned]. *)
Lemma uclean_word_cons c word :
  clean_word (c :: word) =
    if isalnum c then lower c ++ clean_word word else clean_word word.
Proof.
  unfold Unicode.clean_word. destruct (isalnum c) eqn:Hc.
  - rewrite filter_cons_True by (by rewrite Hc). reflexivity.
  - rewrite filter_cons_False; [done|]. by apply Is_true_false_2.
Qed.

Lemma uclean_word_cleaned word : cleaned word (clean_word word).
Proof.
  induction word as [|c word IH]; [apply Unicode.cleaned_end|].
  rewrite uclean_word_cons. destruct (isalnum c) eqn:Hc.
  - apply Unicode.cleaned_keep; [by apply Is_true_true_2|done].
  - apply Unicode.cleaned_drop; [by apply Is_true_false_2|done].
Qed.

Lemma ucleaned_unique word token : cleaned word token → token = clean_word word.
Proof.
  induction 1 as [|c word token Hc _ IH|c word token Hc _ IH];
    rewrite ?uclean_word_cons.
  - done.
  - apply Is_true_true_1 in Hc. by rewrite Hc, IH.
  - apply Is_true_false_1 in Hc. by rewrite Hc.
Qed.

Lemma uclean_word_no_alnum word :
  (∀ c, c ∈ word → ¬ isalnum c) → clean_word word = [].
Proof.
  induction word as [|c word IH]; intros Hword; [done|].
  rewrite uclean_word_cons.
  rewrite (Is_true_false_1 _ (Hword c (list_elem_of_here _ _))).
  apply IH. intros c' Hc'. by apply Hword, list_elem_of_further.
Qed.

Lemma upreprocess_text_strings (sentences : list (list char)) :
  Unicode.preprocess_text isspace isalnum lower (Unicode.VList (Unicode.VStr <$> sentences))
  = Ok ((λ sentence, clean_word <$> Unicode.split isspace sentence) <$> sentences).
Proof.
  unfold Unicode.preprocess_text.
  induction sentences as [|sentence sentences IH]; [done|].
  rewrite !fmap_cons. cbn [mapM]. rewrite IH. reflexivity.
Qed.

End alphabet_facts.

(** Tables that agree on the characters of a sentence give the same
    tokens. *)
Lemma usplit_scan_ext {char : Type} (isspace isspace' : char → bool)
    (word s : list char) :
  Forall (λ c, isspace c = isspace' c) s →
  Unicode.split_scan isspace word s = Unicode.split_scan isspace' word s.
Proof.
  intros Hs. revert word. induction Hs as [|c s Hc _ IH]; intros word; [done|].
  cbn [Unicode.split_scan]. rewrite <- Hc. destruct (isspace c).
  - destruct word; by rewrite IH.
  - apply IH.
Qed.

Lemma uclean_word_ext {char : Type} (isalnum isalnum' : char → bool)
    (lower lower' : char → list char) (word : list char) :
  Forall (λ c, isalnum c = isalnum' c ∧ lower c = lower' c) word →
  Unicode.clean_word isalnum lower word = Unicode.clean_word isalnum' lower' word.
Proof.
  induction 1 as [|c word [Hc Hl] _ IH]; [done|].
  rewrite !uclean_word_cons, <- Hc, <- Hl, IH. done.
Qed.

Lemma usplits_into_chars {char : Type} (isspace : char → bool)
    (s : list char) (words : list (list char)) :
  Unicode.splits_into isspace s words →
  ∀ word c, word ∈ words → c ∈ word → c ∈ s.
Proof.
  induction 1 as [gap Hgap|gap word rest words Hgap Hne Hsolid Hend _ IH];
    intros w c Hw Hc.
  - by apply elem_of_nil in Hw.
  - rewrite !elem_of_app. apply elem_of_cons in Hw as [->|Hw]; [by right; left|].
    right; right. by apply (IH w).
Qed.

Lemma utokens_ext {char : Type} (isspace isspace' isalnum isalnum' : char → bool)
    (lower lower' : char → list char) (s : list char) :
  Forall (λ c, isspace c = isspace' c ∧ isalnum c = isalnum' c ∧ lower c = lower' c) s →
  Unicode.clean_word isalnum lower <$> Unicode.split isspace s
  = Unicode.clean_word isalnum' lower' <$> Unicode.split isspace' s.
Proof.
  intros Hs. unfold Unicode.split.
  rewrite (usplit_scan_ext isspace isspace').
  - apply list_fmap_ext. intros _ word Hword%list_elem_of_lookup_2.
    apply uclean_word_ext, Forall_forall. intros c Hc.
    pose proof (usplits_into_chars isspace' s _ (usplit_splits isspace' s) word c Hword Hc)
      as Hin.
    rewrite Forall_forall in Hs. by destruct (Hs c Hin) as (_ & ? & ?).
  - eapply Forall_impl; [exact Hs|]. by intros c (? & _).
Qed.

(** The tokens of an ASCII sentence, under any tables that are right on
    the ASCII range. *)
Lemma utokens_ascii (isspace isalnum : N → bool) (lower : N → list N) (s : list N) :
  Unicode.ascii_tables isspace isalnum lower →
  Forall (λ n, (n < 128)%N) s →
  Unicode.clean_word isalnum lower <$> Unicode.split isspace s
  = Unicode.clean_word (λ n, Str.isalnum (Str.chr n))
      (λ n, [Str.ord (Str.to_lower (Str.chr n))])
    <$> Unicode.split (λ n, Str.isspace (Str.chr n)) s.
Proof.
  intros Htables Hs. apply utokens_ext.
  eapply Forall_impl; [exact Hs|]. intros n Hn. by apply Htables.
Qed.

(** The strings of code points below 256 are an instance. *)
Section latin1.

Local Abbreviation lower8 := (λ c, Str.chars (Str.lower c)).

Lemma chars_nil (s : string) : Str.chars s = [] ↔ s = "".
Proof. by destruct s. Qed.

Lemma chars_app (s t : string) : Str.chars (s +:+ t) = Str.chars s ++ Str.chars t.
Proof.
  induction s as [|c s IH]; [done|]. rewrite str_app_cons. cbn. by rewrite IH.
Qed.

Lemma split_scan_latin1 (word s : string) :
  Str.chars <$> Str.split_scan word s
  = Unicode.split_scan Str.isspace (Str.chars word) (Str.chars s).
Proof.
  revert word. induction s as [|c s IH]; intros word.
  - cbn [Str.split_scan Str.chars Unicode.split_scan].
    destruct word as [|c' word]; [by rewrite decide_True|by rewrite decide_False].
  - cbn [Str.split_scan Str.chars Unicode.split_scan]. destruct (Str.isspace c).
    + destruct word as [|c' word].
      * rewrite decide_True by done. apply IH.
      * rewrite decide_False by done. rewrite fmap_cons. cbn [Str.chars]. f_equal. apply IH.
    + rewrite IH, chars_app. done.
Qed.

Lemma split_latin1 (s : string) :
  Str.chars <$> Str.split s = Unicode.split Str.isspace (Str.chars s).
Proof. apply (split_scan_latin1 "" s). Qed.

Lemma clean_word_latin1 (word : string) :
  Str.chars (clean_word word)
  = Unicode.clean_word Str.isalnum lower8 (Str.chars word).
Proof.
  rewrite clean_word_chars. unfold Unicode.clean_word.
  induction (filter (λ c, Str.isalnum c) (Str.chars word)) as [|c l IH]; [done|].
  rewrite !fmap_cons. cbn. by rewrite IH.
Qed.

Lemma preprocess_text_latin1 (sentences : list string) :
  Unicode.preprocess_text Str.isspace Str.isalnum lower8
    (Unicode.VList ((λ s, Unicode.VStr (Str.chars s)) <$> sentences))
  = Ok ((λ s, Str.chars <$> tokens s) <$> sentences).
Proof.
  rewrite (list_fmap_compose Str.chars Unicode.VStr), upreprocess_text_strings.
  rewrite <- list_fmap_compose. f_equal. apply list_fmap_ext. intros _ s _.
  unfold tokens, compose.
  rewrite <- split_latin1, <- !list_fmap_compose.
  apply list_fmap_ext. intros _ word _. unfold compose. by rewrite clean_word_latin1.
Qed.

End latin1.

(** C6: for every sequence of raw strings, over any characters and
    whatever the tables of the interpreter, [preprocess_text] returns one
    token sequence per input string, in the order of the input; the words
    of a string are the maximal runs of characters that are no whitespace,
    and each word gives one token: its alphanumeric characters, from left
    to right, each replaced by its lowercase.  A word without alphanumeric
    character gives the empty token, which stays in its place.  With
    tables that are right on the ASCII range, the sentence
    ["Hello, this is some text."] gives hello, this, is, some, text. *)
Theorem normalize_tokens :
  (∀ (char : Type) (isspace isalnum : char → bool) (lower : char → list char)
     (sentences : list (list char)),
     ∃ out,
       Unicode.preprocess_text isspace isalnum lower
         (Unicode.VList (Unicode.VStr <$> sentences)) = Ok out
       ∧ length out = length sentences
       ∧ ∀ i sentence,
           sentences !! i = Some sentence →
           ∃ words,
             Unicode.splits_into isspace sentence words
             ∧ (∀ words', Unicode.splits_into isspace sentence words' → words' = words)
             ∧ out !! i = Some (Unicode.clean_word isalnum lower <$> words))
  ∧ (∀ (char : Type) (isalnum : char → bool) (lower : char → list char)
       (word token : list char),
       Unicode.cleaned isalnum lower word token
       ↔ token = Unicode.clean_word isalnum lower word)
  ∧ (∀ (char : Type) (isalnum : char → bool) (lower : char → list char)
       (word : list char),
       (∀ c, c ∈ word → ¬ isalnum c) → Unicode.clean_word isalnum lower word = [])
  ∧ (∀ (isspace isalnum : N → bool) (lower : N → list N),
       Unicode.ascii_tables isspace isalnum lower →
       Unicode.preprocess_text isspace isalnum lower
         (Unicode.VList [Unicode.VStr (Unicode.codes "Hello, this is some text.")])
       = Ok [Unicode.codes <$> ["hello"; "this"; "is"; "some"; "text"]]
       ∧ Unicode.preprocess_text isspace isalnum lower
           (Unicode.VList [Unicode.VStr (Unicode.codes "well - isn't it ?!")])
         = Ok [Unicode.codes <$> ["well"; ""; "isnt"; "it"; ""]]).
Proof.
  split; [|split; [|split]].
  - intros char isspace isalnum lower sentences. eexists.
    split; [apply upreprocess_text_strings|]. split; [apply length_fmap|].
    intros i sentence Hi. exists (Unicode.split isspace sentence).
    split; [apply usplit_splits|]. split.
    + intros words' Hwords'. by apply usplits_into_unique.
    + by rewrite list_lookup_fmap, Hi.
  - intros char isalnum lower word token. split.
    + apply ucleaned_unique.
    + intros ->. apply uclean_word_cleaned.
  - intros char isalnum lower word. apply uclean_word_no_alnum.
  - intros isspace isalnum lower Htables.
    change [Unicode.VStr (Unicode.codes "Hello, this is some text.")]
      with (Unicode.VStr <$> [Unicode.codes "Hello, this is some text."]).
    change [Unicode.VStr (Unicode.codes "well - isn't it ?!")]
      with (Unicode.VStr <$> [Unicode.codes "well - isn't it ?!"]).
    rewrite !upreprocess_text_strings. cbn [fmap list_fmap].
    rewrite !(utokens_ascii isspace isalnum lower) by
      (done || (apply (bool_decide_unpack _); vm_compute; exact I)).
    split; vm_compute; reflexivity.
Qed.

Lemma normalize_tokens_witness :
  Unicode.preprocess_text
    (λ n, Str.isspace (Str.chr n)) (λ n, Str.isalnum (Str.chr n))
    (λ n, [Str.ord (Str.to_lower (Str.chr n))])
    (Unicode.VList [Unicode.VStr (Unicode.codes "Hello, this is some text.")])
  = Ok [Unicode.codes <$> ["hello"; "this"; "is"; "some"; "text"]].
Proof.
  apply (proj2 (proj2 (proj2 normalize_tokens))). intros n Hn. done.
Defined.

(** ** The type test of the normaliser *)

Lemma mapM_split_error (l : list pyval) e :
  mapM (M := result)
    (λ sentence,
       words ← call_split sentence;
       Ok (clean_word <$> (words : list string))) l = Raise e →
  e = AttributeError.
Proof.
  revert e. induction l as [|v l IH]; intros e; [done|].
  cbn [mapM]. destruct v; cbn; try by intros [= <-].
  destruct (mapM _ l) as [k|e'] eqn:Hl; cbn; [done|].
  intros [= <-]. by apply IH.
Qed.

(** C8, as the claim states it, fails on a list that holds something else
    than strings: the type test accepts it, and the error comes later, from
    the missing [split] method, as another exception. *)
Lemma normalize_type_error_counterexample :
  ¬ Spec.sequence_of_strings (PList [PInt 1])
  ∧ preprocess_text (PList [PInt 1]) = Raise AttributeError
  ∧ ¬ (preprocess_text (PList [PInt 1]) = Raise ValueError
       ↔ ¬ Spec.sequence_of_strings (PList [PInt 1])).
Proof.
  assert (Hno : ¬ Spec.sequence_of_strings (PList [PInt 1])).
  { intros [[|s sentences] Heq]; discriminate Heq. }
  split; [done|]. split; [reflexivity|].
  intros [_ Himp]. specialize (Himp Hno). discriminate Himp.
Qed.

(** C8, amended: [preprocess_text] raises its type error if and only if
    its argument is not a list; the elements are not looked at.  A raw
    string is rejected with this error, not wrapped, and every list of
    strings is accepted without error. *)
Theorem normalize_type_error :
  (∀ v, preprocess_text v = Raise ValueError ↔ ¬ Spec.is_list v)
  ∧ (∀ s, preprocess_text (PStr s) = Raise ValueError)
  ∧ (∀ sentences : list string,
       ∃ out, preprocess_text (PList (PStr <$> sentences)) = Ok out).
Proof.
  split; [|split].
  - intros v. split.
    + intros Hv [l ->]. by apply mapM_split_error in Hv.
    + intros Hv. destruct v; try done. destruct Hv. by eexists.
  - done.
  - intros sentences. eexists. apply preprocess_text_strings.
Qed.

(** * The brevity penalty *)

Section penalty_facts.

Implicit Types (candidate : list string) (references : list (list string)).

Lemma foldl_min_spec (x : Z) (l : list Z) :
  foldl Z.min x l ∈ x :: l ∧ ∀ y, y ∈ x :: l → foldl Z.min x l ≤ y.
Proof.
  revert x. induction l as [|z l IH]; intros x.
  - split; [apply list_elem_of_here|].
    intros y Hy. apply list_elem_of_singleton in Hy as ->. simpl. lia.
  - cbn [foldl]. destruct (IH (Z.min x z)) as [Hin Hle]. split.
    + apply elem_of_cons in Hin as [->|Hin].
      * destruct (Z.min_spec x z) as [[_ ->]|[_ ->]].
        -- apply list_elem_of_here.
        -- apply list_elem_of_further, list_elem_of_here.
      * by do 2 apply list_elem_of_further.
    + intros y Hy. apply elem_of_cons in Hy as [->|Hy].
      * specialize (Hle _ (list_elem_of_here _ _)). lia.
      * apply elem_of_cons in Hy as [->|Hy].
        -- specialize (Hle _ (list_elem_of_here _ _)). lia.
        -- apply Hle. by apply list_elem_of_further.
Qed.

(** [min] over the lengths of a non-empty collection is the length of a
    shortest reference. *)
Lemma min_len_spec references :
  references ≠ [] →
  ∃ r, Py.min (Py.len <$> references) = Ok r
       ∧ (∃ reference, reference ∈ references ∧ Py.len reference = r)
       ∧ (∀ reference, reference ∈ references → r ≤ Py.len reference).
Proof.
  intros Hne. destruct references as [|x references]; [done|].
  rewrite fmap_cons. cbn [Py.min]. eexists. split; [done|].
  destruct (foldl_min_spec (Py.len x) (Py.len <$> references)) as [Hin Hle].
  rewrite <- fmap_cons in Hin, Hle. split.
  - apply list_elem_of_fmap in Hin as (reference & -> & Hin). by exists reference.
  - intros reference Href. apply Hle. by apply list_elem_of_fmap_2.
Qed.

Lemma Q2R_inject_Z (z : Z) : Q2R (inject_Z z) = IZR z.
Proof. unfold Q2R, inject_Z. simpl. lra. Qed.

Lemma Q2R_one_minus_quotient (r c : Z) :
  c ≠ 0 → Q2R (1 - inject_Z r / inject_Z c) = (1 - IZR r / IZR c)%R.
Proof.
  intros Hc. rewrite Q2R_minus, Q2R_div, !Q2R_inject_Z, RMicromega.Q2R_1; [done|].
  intros Heq. apply Hc. unfold Qeq in Heq. simpl in Heq. lia.
Qed.

Lemma brevity_penalty_min candidate references :
  candidate ≠ [] → references ≠ [] →
  ∃ r, (∃ reference, reference ∈ references ∧ Py.len reference = r)
       ∧ (∀ reference, reference ∈ references → r ≤ Py.len reference)
       ∧ brevity_penalty candidate references =
           Ok (if decide (r < Py.len candidate)%Z then 1
               else exp (1 - IZR r / IZR (Py.len candidate)))%R.
Proof.
  intros Hc Hr. destruct (min_len_spec references Hr) as (r & Hmin & Hin & Hle).
  exists r. split; [done|]. split; [done|].
  unfold brevity_penalty. rewrite Hmin. cbn.
  assert (Py.len candidate ≠ 0) as Hlen.
  { unfold Py.len. destruct candidate; [done|]. cbn. lia. }
  destruct (Z.gtb_spec (Py.len candidate) r) as [Hgt|Hgt].
  - by rewrite decide_True by lia.
  - rewrite decide_False by lia. unfold Py.truediv.
    rewrite (proj2 (Z.eqb_neq _ _) Hlen). cbn.
    by rewrite Q2R_one_minus_quotient.
Qed.

Lemma brevity_penalty_empty_candidate references :
  brevity_penalty [] references =
    match references with
    | [] => Raise ValueError
    | _ => Raise ZeroDivisionError
    end.
Proof.
  destruct references as [|x references]; [done|].
  destruct (min_len_spec (x :: references)) as (r & Hmin & (ref & _ & Hr) & _); [done|].
  unfold brevity_penalty. rewrite Hmin. cbn.
  change (Py.len []) with 0.
  destruct (Z.gtb_spec 0 r) as [Hgt|Hgt]; [unfold Py.len in Hr; lia|done].
Qed.

End penalty_facts.

(** C4: for every non-empty candidate and every non-empty collection of
    references, with c the length of the candidate and r the least length
    of a reference, [brevity_penalty] returns 1 when c > r and
    exp (1 - r / c) when c <= r. *)
Theorem brevity_penalty_value
    (candidate : list string) (references : list (list string)) :
  candidate ≠ [] → references ≠ [] →
  ∃ r,
    (∃ reference, reference ∈ references ∧ Py.len reference = r)
    ∧ (∀ reference, reference ∈ references → r ≤ Py.len reference)
    ∧ (Py.len candidate > r → brevity_penalty candidate references = Ok 1%R)
    ∧ (Py.len candidate ≤ r →
         brevity_penalty candidate references =
           Ok (exp (1 - IZR r / IZR (Py.len candidate)))%R).
Proof.
  intros Hc Hr.
  destruct (brevity_penalty_min candidate references Hc Hr) as (r & Hin & Hle & Hbp).
  exists r. repeat split; try done.
  - intros Hgt. rewrite Hbp. by rewrite decide_True by lia.
  - intros Hgt. rewrite Hbp. by rewrite decide_False by lia.
Qed.

Lemma brevity_penalty_value_witness :
  ∃ r,
    (∃ reference,
       reference ∈ [["A"; "test"; "hello"]; ["Another"; "test"; "longer"; "better?"]]
       ∧ Py.len reference = r)
    ∧ (∀ reference,
         reference ∈ [["A"; "test"; "hello"]; ["Another"; "test"; "longer"; "better?"]]
         → r ≤ Py.len reference)
    ∧ (Py.len ["A"; "test"] > r →
         brevity_penalty ["A"; "test"]
           [["A"; "test"; "hello"]; ["Another"; "test"; "longer"; "better?"]] = Ok 1%R)
    ∧ (Py.len ["A"; "test"] ≤ r →
         brevity_penalty ["A"; "test"]
           [["A"; "test"; "hello"]; ["Another"; "test"; "longer"; "better?"]]
           = Ok (exp (1 - IZR r / IZR (Py.len ["A"; "test"])))%R).
Proof. apply brevity_penalty_value; discriminate. Defined.

(** C7: for a candidate of length >= 1 and a non-empty collection of
    references the quotient r / c is defined and [brevity_penalty] returns
    a value; for an empty candidate the division by zero is reached and the
    call fails: it never returns a value, 0 or other. *)
Theorem brevity_penalty_division :
  (∀ candidate references,
     1 ≤ Py.len candidate → references ≠ [] →
     ∃ bp, brevity_penalty candidate references = Ok bp)
  ∧ (∀ references,
       references ≠ [] → brevity_penalty [] references = Raise ZeroDivisionError)
  ∧ (∀ references bp, brevity_penalty [] references ≠ Ok bp).
Proof.
  split; [|split].
  - intros candidate references Hc Hr.
    destruct (brevity_penalty_min candidate references) as (r & _ & _ & ->);
      [by destruct candidate|done|by eexists].
  - intros references Hr. rewrite brevity_penalty_empty_candidate.
    by destruct references.
  - intros references bp. rewrite brevity_penalty_empty_candidate.
    by destruct references.
Qed.

Lemma brevity_penalty_division_witness :
  ∃ bp, brevity_penalty ["A"; "test"] [["A"; "test"]; ["Another"; "test"]] = Ok bp.
Proof.
  apply (proj1 brevity_penalty_division); [unfold Py.len; simpl; lia|discriminate].
Defined.

(** * The score combiner *)

Section combiner_facts.

Implicit Types (candidate : list string) (references : list (list string)).

(** A loop whose body appends one value per element and never raises
    collects these values. *)
Lemma for_each_append {A B} (g : A → B) (body : list B → A → result (list B))
    (l : list A) (acc : list B) :
  (∀ x acc, x ∈ l → body acc x = Ok (acc ++ [g x])) →
  for_each l body acc = Ok (acc ++ (g <$> l)).
Proof.
  revert acc. induction l as [|x l IH]; intros acc Hbody.
  - cbn. by rewrite app_nil_r.
  - cbn [for_each]. rewrite Hbody by apply list_elem_of_here. cbn.
    rewrite IH.
    + by rewrite <- app_assoc.
    + intros y acc' Hy. apply Hbody. by apply list_elem_of_further.
Qed.

Lemma range2_empty (a b : Z) : b ≤ a → Py.range2 a b = [].
Proof.
  intros Hab. unfold Py.range2, Py.range.
  by replace (Z.to_nat (b - a)) with 0%nat by lia.
Qed.

(** [range(1, max_n + 1)] lists the orders 1 .. max_n. *)
Lemma range2_orders (max_n : Z) :
  Py.range2 1 (max_n + 1) = Z.of_nat <$> seq 1 (Z.to_nat max_n).
Proof.
  unfold Py.range2, Py.range.
  replace (max_n + 1 - 1) with max_n by lia.
  rewrite <- (fmap_S_seq 0), <- !list_fmap_compose.
  apply list_fmap_ext. intros _ i _. simpl. lia.
Qed.

(** One turn of the loop of [bleu_score_sentence]. *)
Lemma precision_turn candidate references (n : nat) :
  (1 ≤ n)%nat →
  ('(p_n, total) ← n_gram_precision candidate references (Z.of_nat n);
   if total >? 0 then Py.truediv p_n total else Ok 0%Q)
  = Ok (Spec.ratio candidate references n).
Proof.
  intros Hn. rewrite n_gram_precision_spec by lia. cbn.
  rewrite Nat2Z.id. unfold Spec.ratio.
  pose proof (numerator_le_denominator candidate references n) as Hle.
  destruct (Z.gtb_spec (Spec.denominator candidate n) 0) as [Hgt|Hgt].
  - rewrite decide_False by lia. unfold Py.truediv.
    by rewrite (proj2 (Z.eqb_neq _ _)) by lia.
  - by rewrite decide_True by lia.
Qed.

Lemma precisions_loop candidate references (max_n : Z) :
  for_each (Py.range2 1 (max_n + 1))
    (λ precisions n,
       '(p_n, total) ← n_gram_precision candidate references n;
       p ← (if total >? 0 then Py.truediv p_n total else Ok 0%Q);
       Ok (precisions ++ [p]))
    []
  = Ok (Spec.ratios candidate references max_n).
Proof.
  rewrite range2_orders.
  rewrite (for_each_append
             (λ n, Spec.ratio candidate references (Z.to_nat n))).
  - unfold Spec.ratios. rewrite <- list_fmap_compose. cbn. f_equal.
    apply list_fmap_ext. intros _ i _. cbn. by rewrite Nat2Z.id.
  - intros n acc Hn. apply list_elem_of_fmap in Hn as (i & -> & Hi).
    apply elem_of_seq in Hi.
    assert (Hturn := precision_turn candidate references i (proj1 Hi)).
    rewrite Nat2Z.id.
    destruct (n_gram_precision candidate references (Z.of_nat i)) as [[p_n total]|e];
      cbn in Hturn |- *; [|discriminate Hturn].
    rewrite Hturn. reflexivity.
Qed.

Lemma bleu_score_sentence_unfold (candidate_seq : string)
    (references_seqs : list string) (max_n : Z) :
  bleu_score_sentence candidate_seq references_seqs max_n =
    let candidate := tokens candidate_seq in
    let references := tokens <$> references_seqs in
    let precisions := Spec.ratios candidate references max_n in
    if forallb (λ p, Qeq_bool p 0) precisions then Ok 0%R
    else
      bp ← brevity_penalty candidate references;
      Ok (bp * exp (np_mean ((λ p, ln (Q2R p))
                               <$> filter (λ p, Qpositive p) precisions)))%R.
Proof.
  unfold bleu_score_sentence, bleu_score_sentence_with.
  change (PList [PStr candidate_seq]) with (PList (PStr <$> [candidate_seq])).
  rewrite !preprocess_text_strings. cbn [mbind result_bind fmap list_fmap Py.first].
  by rewrite precisions_loop.
Qed.

Lemma all_zero_Forall (precisions : list Q) :
  forallb (λ p, Qeq_bool p 0) precisions = true
  ↔ Forall (λ p, (p == 0)%Q) precisions.
Proof.
  rewrite forallb_forall, Forall_forall. split.
  - intros Hall p Hp. by apply Qeq_bool_iff, Hall, list_elem_of_In.
  - intros Hall p Hp. by apply Qeq_bool_iff, Hall, list_elem_of_In.
Qed.

Lemma Qpositive_lt (p : Q) : Qpositive p ↔ (0 < p)%Q.
Proof.
  unfold Qpositive. destruct (Qle_bool p 0) eqn:Hle; simpl.
  - apply Qle_bool_iff in Hle. split; [done|].
    intros Hlt. by apply (Qle_not_lt _ _ Hle).
  - split; [|done]. intros _. apply Qnot_le_lt. intros Hle'.
    apply Qle_bool_iff in Hle'. congruence.
Qed.

Lemma np_mean_mean (l : list R) : np_mean l = Spec.mean l.
Proof.
  unfold np_mean, Spec.mean. f_equal.
  assert (Hshift : ∀ (k : list R) (a : R), foldl Rplus a k = (a + foldr Rplus 0 k)%R).
  { induction k as [|x k IH]; intros a; simpl; [lra|]. rewrite IH. lra. }
  rewrite Hshift. lra.
Qed.

Lemma numerator_no_reference candidate n : Spec.numerator candidate [] n = 0.
Proof.
  unfold Spec.numerator. rewrite <- sum_total.
  rewrite (sum_fmap_ext _ (λ _, 0)).
  - generalize (remove_dups (Spec.windows candidate n)).
    intros l. induction l as [|g l IH]; [done|]. by rewrite fmap_cons, sum_cons, IH.
  - intros g _. change (Spec.ceiling [] n g) with 0.
    pose proof (occurrences_nonneg g (Spec.windows candidate n)). lia.
Qed.

Lemma ratio_cases candidate references n :
  (Spec.ratio candidate references n == 0)%Q
  ∨ ((0 < Spec.ratio candidate references n)%Q
     ∧ 0 < Spec.numerator candidate references n
     ∧ 0 < Spec.denominator candidate n).
Proof.
  unfold Spec.ratio.
  pose proof (numerator_le_denominator candidate references n) as Hle.
  destruct (decide (Spec.denominator candidate n = 0)) as [|Hden]; [by left|].
  destruct (decide (Spec.numerator candidate references n = 0)) as [->|Hnum].
  - left. unfold Qeq. simpl. lia.
  - right. split; [|lia]. apply Rlt_Qlt.
    rewrite RMicromega.Q2R_0, Q2R_div, !Q2R_inject_Z.
    + apply Rdiv_lt_0_compat; apply IZR_lt; lia.
    + unfold Qeq. simpl. lia.
Qed.

(** When an order has a non-zero ratio, the penalty is defined. *)
Lemma ratio_positive_inputs candidate references (n : nat) :
  (1 ≤ n)%nat →
  (0 < Spec.ratio candidate references n)%Q →
  candidate ≠ [] ∧ references ≠ [].
Proof.
  intros Hn Hpos.
  destruct (ratio_cases candidate references n) as [Hz|(_ & Hnum & Hden)].
  { rewrite Hz in Hpos. by apply Qlt_irrefl in Hpos. }
  split.
  - intros ->. unfold Spec.denominator in Hden.
    rewrite windows_length in Hden. simpl in Hden. lia.
  - intros ->. rewrite numerator_no_reference in Hnum. lia.
Qed.

End combiner_facts.

(** C3: for every candidate string, every collection of reference strings
    and max_order >= 1, [bleu_score_sentence] takes for each order
    1 .. max_order the precision ratio (0 when the denominator is 0); when
    every ratio is 0 it returns 0; otherwise it returns the brevity penalty
    times the exponential of the arithmetic mean of the logarithms of the
    strictly positive ratios: the zero ratios are left out of the mean. *)
Theorem bleu_score_combination
    (candidate_seq : string) (references_seqs : list string) (max_n : Z) :
  1 ≤ max_n →
  let candidate := tokens candidate_seq in
  let references := tokens <$> references_seqs in
  let ratios := Spec.ratios candidate references max_n in
  (∀ n, 1 ≤ n ≤ max_n →
     ∃ numerator denominator,
       n_gram_precision candidate references n = Ok (numerator, denominator)
       ∧ ratios !! Z.to_nat (n - 1) =
           Some (if decide (denominator = 0) then 0%Q
                 else (inject_Z numerator / inject_Z denominator)%Q))
  ∧ (Forall (λ p, (p == 0)%Q) ratios →
       bleu_score_sentence candidate_seq references_seqs max_n = Ok 0%R)
  ∧ (¬ Forall (λ p, (p == 0)%Q) ratios →
       filter (λ p, (0 < p)%Q) ratios ≠ []
       ∧ ∃ bp,
           brevity_penalty candidate references = Ok bp
           ∧ bleu_score_sentence candidate_seq references_seqs max_n =
               Ok (bp * Spec.geometric_mean ratios)%R).
Proof.
  intros Hmax candidate references ratios. split; [|split].
  - intros n Hn. eexists _, _. split; [apply n_gram_precision_spec; lia|].
    unfold ratios, Spec.ratios. rewrite list_lookup_fmap.
    rewrite (lookup_seq_lt 1 (Z.to_nat max_n) (Z.to_nat (n - 1))) by lia.
    cbn. by replace (S (Z.to_nat (n - 1))) with (Z.to_nat n) by lia.
  - intros Hzero. rewrite bleu_score_sentence_unfold. cbv zeta.
    fold candidate references ratios.
    by rewrite (proj2 (all_zero_Forall _) Hzero).
  - intros Hsome.
    assert (Hpos : ∃ n, (1 ≤ n)%nat
                        ∧ (0 < Spec.ratio candidate references n)%Q
                        ∧ Spec.ratio candidate references n ∈ ratios).
    { apply not_Forall_Exists in Hsome; [|apply _].
      apply Exists_exists in Hsome as (p & Hp & Hnz).
      apply list_elem_of_fmap in Hp as Hn. destruct Hn as (n & -> & Hn).
      apply elem_of_seq in Hn. exists n. split; [lia|]. split; [|done].
      by destruct (ratio_cases candidate references n) as [?|[? _]]. }
    destruct Hpos as (n & Hn & Hpos & Hin).
    destruct (ratio_positive_inputs candidate references n Hn Hpos) as [Hc Hr].
    split.
    + intros Hnil.
      assert (Spec.ratio candidate references n ∈ filter (λ p, (0 < p)%Q) ratios) as Hf
        by by apply list_elem_of_filter.
      rewrite Hnil in Hf. by apply elem_of_nil in Hf.
    + destruct (brevity_penalty_min candidate references Hc Hr) as (r & _ & _ & Hbp).
      eexists. split; [exact Hbp|].
      rewrite bleu_score_sentence_unfold. cbv zeta. fold candidate references ratios.
      destruct (forallb (λ p, Qeq_bool p 0) ratios) eqn:Hall.
      { by apply all_zero_Forall in Hall. }
      rewrite Hbp. cbn. unfold Spec.geometric_mean.
      by rewrite np_mean_mean, (list_filter_iff _ _ _ Qpositive_lt).
Qed.

Lemma bleu_score_combination_witness :
  let candidate := tokens Examples.sentence21 in
  let references := tokens <$> Examples.sentences2 in
  let ratios := Spec.ratios candidate references 4 in
  (∀ n, 1 ≤ n ≤ 4 →
     ∃ numerator denominator,
       n_gram_precision candidate references n = Ok (numerator, denominator)
       ∧ ratios !! Z.to_nat (n - 1) =
           Some (if decide (denominator = 0) then 0%Q
                 else (inject_Z numerator / inject_Z denominator)%Q))
  ∧ (Forall (λ p, (p == 0)%Q) ratios →
       bleu_score_sentence Examples.sentence21 Examples.sentences2 4 = Ok 0%R)
  ∧ (¬ Forall (λ p, (p == 0)%Q) ratios →
       filter (λ p, (0 < p)%Q) ratios ≠ []
       ∧ ∃ bp,
           brevity_penalty candidate references = Ok bp
           ∧ bleu_score_sentence Examples.sentence21 Examples.sentences2 4 =
               Ok (bp * Spec.geometric_mean ratios)%R).
Proof.
  apply (bleu_score_combination Examples.sentence21 Examples.sentences2 4). lia.
Defined.

(** C10: for every candidate string and every collection of reference
    strings, [bleu_score_sentence] with max_order < 1 returns 0 and raises
    nothing: the loop over the orders has no turn, and the result does not
    depend on the precision counter nor on the brevity penalty, which are
    not called; the precision counter itself rejects such an order. *)
Theorem bleu_score_order_below_one
    (candidate_seq : string) (references_seqs : list string) (max_n : Z) :
  max_n < 1 →
  bleu_score_sentence candidate_seq references_seqs max_n = Ok 0%R
  ∧ (∀ precision penalty,
       bleu_score_sentence_with precision penalty candidate_seq references_seqs max_n
       = Ok 0%R)
  ∧ (∀ candidate references,
       n_gram_precision candidate references max_n = Raise ValueError).
Proof.
  intros Hmax.
  assert (Hany : ∀ precision penalty,
            bleu_score_sentence_with precision penalty candidate_seq references_seqs max_n
            = Ok 0%R).
  { intros precision penalty. unfold bleu_score_sentence_with.
    change (PList [PStr candidate_seq]) with (PList (PStr <$> [candidate_seq])).
    rewrite !preprocess_text_strings. cbn [mbind result_bind fmap list_fmap Py.first].
    by rewrite range2_empty by lia. }
  split; [apply Hany|]. split; [apply Hany|].
  intros candidate references. unfold n_gram_precision.
  by rewrite (proj2 (Z.ltb_lt max_n 1)).
Qed.

Lemma bleu_score_order_below_one_witness :
  bleu_score_sentence Examples.sentence21 Examples.sentences2 0 = Ok 0%R
  ∧ (∀ precision penalty,
       bleu_score_sentence_with precision penalty
         Examples.sentence21 Examples.sentences2 0 = Ok 0%R)
  ∧ (∀ candidate references,
       n_gram_precision candidate references 0 = Raise ValueError).
Proof.
  apply (bleu_score_order_below_one Examples.sentence21 Examples.sentences2 0). lia.
Defined.

(** * The outputs of the notebook *)

(** The two assertions of the notebook on [brevity_penalty]. *)
Lemma examples_penalty :
  brevity_penalty ["A"; "test"] [["A"; "test"]; ["Another"; "test"]] = Ok 1%R
  ∧ brevity_penalty ["A"; "test"]
      [ ["A"; "test"; "hello"]; ["Another"; "test"; "longer"; "better?"];
        ["And"; "another"; "test"; "longer"; "worse!"] ]
    = Ok (exp (- (1 / 2)))%R.
Proof.
  split.
  - destruct (brevity_penalty_min ["A"; "test"] [["A"; "test"]; ["Another"; "test"]])
      as (r & (ref & Href & Hr) & Hle & ->); [done..|].
    assert (r = 2) as ->.
    { specialize (Hle ["A"; "test"] (list_elem_of_here _ _)).
      repeat (apply elem_of_cons in Href as [->|Href]; [vm_compute in Hr; lia|]).
      by apply elem_of_nil in Href. }
    rewrite decide_False by (vm_compute; discriminate).
    change (Py.len ["A"; "test"]) with 2. f_equal.
    replace (1 - 2 / 2)%R with 0%R by lra. apply exp_0.
  - destruct (brevity_penalty_min ["A"; "test"]
                [ ["A"; "test"; "hello"]; ["Another"; "test"; "longer"; "better?"];
                  ["And"; "another"; "test"; "longer"; "worse!"] ])
      as (r & (ref & Href & Hr) & Hle & ->); [done..|].
    assert (r = 3) as ->.
    { specialize (Hle ["A"; "test"; "hello"] (list_elem_of_here _ _)).
      unfold Py.len in Hle, Hr. cbn in Hle.
      repeat (apply elem_of_cons in Href as [->|Href]; [cbn in Hr; lia|]).
      by apply elem_of_nil in Href. }
    rewrite decide_False by (vm_compute; discriminate).
    change (Py.len ["A"; "test"]) with 2. do 2 f_equal. lra.
Qed.

(** The first and the last score the notebook prints: 1.0, and
    0.2857142857142857 = 2/7, where three of the four ratios are 0 and are
    left out of the mean. *)
Lemma examples_score :
  bleu_score_sentence "This is a test." ["This is a test."; "This is a test."] 4
    = Ok 1%R
  ∧ bleu_score_sentence Examples.sentence21 Examples.sentences2 4 = Ok (2 / 7)%R.
Proof.
  split.
  - rewrite bleu_score_sentence_unfold. cbv zeta.
    evaluate (tokens "This is a test.").
    evaluate (tokens <$> ["This is a test."; "This is a test."]).
    evaluate (Spec.ratios ["this"; "is"; "a"; "test"]
                [["this"; "is"; "a"; "test"]; ["this"; "is"; "a"; "test"]] 4).
    evaluate (forallb (λ p, Qeq_bool p 0) [4 # 4; 3 # 3; 2 # 2; 1 # 1]%Q).
    evaluate (filter (λ p, Qpositive p) [4 # 4; 3 # 3; 2 # 2; 1 # 1]%Q).
    unfold brevity_penalty.
    evaluate (Py.min (Py.len <$> [["this"; "is"; "a"; "test"]; ["this"; "is"; "a"; "test"]])).
    evaluate (Py.len ["this"; "is"; "a"; "test"]).
    cbn [mbind result_bind]. evaluate (4 >? 4). unfold Py.truediv.
    evaluate (4 =? 0). cbn [mbind result_bind]. f_equal.
    rewrite Q2R_one_minus_quotient by lia.
    unfold np_mean, Q2R. cbn [fmap list_fmap foldl length Qnum Qden].
    replace (1 - 4 / 4)%R with 0%R by lra.
    replace (4 * / 4)%R with 1%R by lra.
    replace (3 * / 3)%R with 1%R by lra.
    replace (2 * / 2)%R with 1%R by lra.
    replace (1 * / 1)%R with 1%R by lra.
    rewrite ln_1, exp_0. simpl INR.
    replace ((0 + 0 + 0 + 0 + 0) / (1 + 1 + 1 + 1))%R with 0%R by lra.
    rewrite exp_0. lra.
  - rewrite bleu_score_sentence_unfold. cbv zeta.
    evaluate (tokens Examples.sentence21).
    evaluate (tokens <$> Examples.sentences2).
    evaluate (Spec.ratios
                ["the"; "the"; "the"; "the"; "the"; "the"; "the"]
                [["the"; "cat"; "is"; "on"; "the"; "mat"];
                 ["the"; "cat"; "is"; "on"; "the"; "mat"]] 4).
    evaluate (forallb (λ p, Qeq_bool p 0) [2 # 7; 0 # 6; 0 # 5; 0 # 4]%Q).
    evaluate (filter (λ p, Qpositive p) [2 # 7; 0 # 6; 0 # 5; 0 # 4]%Q).
    unfold brevity_penalty.
    evaluate (Py.min (Py.len <$> [["the"; "cat"; "is"; "on"; "the"; "mat"];
                                  ["the"; "cat"; "is"; "on"; "the"; "mat"]])).
    evaluate (Py.len ["the"; "the"; "the"; "the"; "the"; "the"; "the"]).
    cbn [mbind result_bind]. evaluate (7 >? 6).
    cbn [mbind result_bind]. f_equal.
    unfold np_mean, Q2R. cbn [fmap list_fmap foldl length Qnum Qden].
    simpl INR.
    replace ((0 + ln (2 * / 7)) / 1)%R with (ln (2 * / 7))%R by lra.
    rewrite exp_ln by lra. lra.
Qed.

(** * Further properties of the normaliser *)

Lemma split_nil_blank (s : string) : Str.split s = [] ↔ Spec.blank s.
Proof.
  split.
  - intros Hnil. pose proof (split_splits s) as Hs. rewrite Hnil in Hs.
    by inversion Hs.
  - intros Hblank. symmetry. by apply splits_into_unique, Spec.splits_blank.
Qed.

Lemma tokens_nil_blank (s : string) : tokens s = [] ↔ Spec.blank s.
Proof.
  rewrite <- split_nil_blank. unfold tokens. split.
  - apply fmap_nil_inv.
  - by intros ->.
Qed.

(** X2: a sentence yields no token at all exactly when it is made of
    whitespace only (the empty sentence included). *)
Theorem blank_sentence_no_token (sentence : string) :
  preprocess_text (PList [PStr sentence]) = Ok [[]]
  ↔ ∀ c, c ∈ Str.chars sentence → Str.isspace c.
Proof.
  change (PList [PStr sentence]) with (PList (PStr <$> [sentence])).
  rewrite preprocess_text_strings. cbn [fmap list_fmap].
  change (∀ c, c ∈ Str.chars sentence → Str.isspace c) with (Spec.blank sentence).
  rewrite <- tokens_nil_blank. split.
  - by intros [= ->].
  - by intros ->.
Qed.

(** * Further properties of the n-gram precision *)

Section precision_more.

Implicit Types (candidate : list string) (references : list (list string)).
Implicit Types (g : list string) (n : nat).

Lemma sum_occurrences (l : list (list string)) :
  Py.sum ((λ g, Spec.occurrences g l) <$> remove_dups l) = Z.of_nat (length l).
Proof.
  rewrite <- (of_list_sum l). unfold Counter.values.
  rewrite (sum_Permutation _ _ (fmap_Permutation _ _ _ (of_list_items l))).
  by rewrite <- list_fmap_compose.
Qed.

Lemma ceiling_subseteq references references' n g :
  (∀ r, r ∈ references → r ∈ references') →
  Spec.ceiling references n g ≤ Spec.ceiling references' n g.
Proof.
  intros Hsub. destruct references as [|r0 references].
  - apply ceiling_nonneg.
  - destruct (ceiling_attained (r0 :: references) n g) as (r & Hr & ->); [done|].
    by apply ceiling_upper_bound, Hsub.
Qed.

Lemma numerator_subseteq candidate references references' n :
  (∀ r, r ∈ references → r ∈ references') →
  Spec.numerator candidate references n ≤ Spec.numerator candidate references' n.
Proof.
  intros Hsub. unfold Spec.numerator. rewrite <- !sum_total.
  apply sum_fmap_le. intros g _.
  pose proof (ceiling_subseteq references references' n g Hsub). lia.
Qed.

Lemma numerator_member candidate references n :
  candidate ∈ references →
  Spec.numerator candidate references n = Spec.denominator candidate n.
Proof.
  intros Hin. unfold Spec.numerator, Spec.denominator.
  rewrite <- sum_total, <- sum_occurrences. apply sum_fmap_ext. intros g _.
  pose proof (ceiling_upper_bound references n g candidate Hin). lia.
Qed.

Lemma numerator_short candidate references n :
  (length candidate < n)%nat → Spec.numerator candidate references n = 0.
Proof.
  intros Hn. pose proof (numerator_le_denominator candidate references n) as Hle.
  unfold Spec.denominator in Hle. rewrite windows_length in Hle. lia.
Qed.

End precision_more.

(** X4: for n >= 1, with no reference at all the clipped count is 0 and
    the total is max(0, len(candidate) - n + 1); with a candidate shorter
    than n the result is (0, 0) whatever the references. *)
Theorem ngram_precision_no_overlap_possible
    (candidate : list string) (references : list (list string)) (n : Z) :
  1 ≤ n →
  n_gram_precision candidate [] n = Ok (0, Z.max 0 (Py.len candidate - n + 1))
  ∧ (Py.len candidate < n → n_gram_precision candidate references n = Ok (0, 0)).
Proof.
  intros Hn. rewrite !n_gram_precision_spec by done.
  rewrite numerator_no_reference, denominator_length by done. split; [done|].
  intros Hlen. rewrite numerator_short by (unfold Py.len in Hlen; lia).
  do 2 f_equal. lia.
Qed.

Lemma ngram_precision_no_overlap_possible_witness :
  n_gram_precision Examples.candidate21 [] 2
    = Ok (0, Z.max 0 (Py.len Examples.candidate21 - 2 + 1))
  ∧ (Py.len Examples.candidate21 < 2 →
       n_gram_precision Examples.candidate21 Examples.references2 2 = Ok (0, 0)).
Proof.
  apply (ngram_precision_no_overlap_possible
           Examples.candidate21 Examples.references2 2). lia.
Defined.

(** X5: for n >= 1, a candidate that is one of the references has full
    precision: the clipped count equals the total count. *)
Theorem ngram_precision_of_a_reference
    (candidate : list string) (references : list (list string)) (n : Z) :
  1 ≤ n → candidate ∈ references →
  n_gram_precision candidate references n =
    Ok (Z.max 0 (Py.len candidate - n + 1), Z.max 0 (Py.len candidate - n + 1)).
Proof.
  intros Hn Hin. rewrite n_gram_precision_spec by done.
  by rewrite numerator_member, denominator_length.
Qed.

Lemma ngram_precision_of_a_reference_witness :
  n_gram_precision ["the"; "cat"; "is"; "on"; "the"; "mat"] Examples.references2 2 =
    Ok (Z.max 0 (Py.len ["the"; "cat"; "is"; "on"; "the"; "mat"] - 2 + 1),
        Z.max 0 (Py.len ["the"; "cat"; "is"; "on"; "the"; "mat"] - 2 + 1)).
Proof.
  apply ngram_precision_of_a_reference; [lia|]. apply list_elem_of_here.
Defined.

(** X6: for n >= 1, enlarging the collection of references keeps the
    total count and never lowers the clipped count. *)
Theorem ngram_precision_more_references
    (candidate : list string) (references references' : list (list string)) (n : Z) :
  1 ≤ n →
  (∀ r, r ∈ references → r ∈ references') →
  ∃ numerator numerator' denominator,
    n_gram_precision candidate references n = Ok (numerator, denominator)
    ∧ n_gram_precision candidate references' n = Ok (numerator', denominator)
    ∧ numerator ≤ numerator'.
Proof.
  intros Hn Hsub. eexists _, _, _. rewrite !n_gram_precision_spec by done.
  split; [done|]. split; [done|]. by apply numerator_subseteq.
Qed.

Lemma ngram_precision_more_references_witness :
  ∃ numerator numerator' denominator,
    n_gram_precision Examples.candidate11 [ ["it"; "is"; "a"; "guide"] ] 1
      = Ok (numerator, denominator)
    ∧ n_gram_precision Examples.candidate11
        [ ["the"; "party"]; ["it"; "is"; "a"; "guide"] ] 1
      = Ok (numerator', denominator)
    ∧ numerator ≤ numerator'.
Proof.
  apply ngram_precision_more_references; [lia|].
  intros r Hr. by apply list_elem_of_further.
Defined.

(** X7: for n >= 1, the result depends on the references as a set:
    repeating a reference (or reordering them) changes nothing, since the
    clipping takes the largest count and not the sum. *)
Theorem ngram_precision_same_references
    (candidate : list string) (references references' : list (list string)) (n : Z) :
  1 ≤ n →
  (∀ r, r ∈ references ↔ r ∈ references') →
  n_gram_precision candidate references n = n_gram_precision candidate references' n.
Proof.
  intros Hn Hsame. rewrite !n_gram_precision_spec by done. do 2 f_equal.
  apply Z.le_antisymm; apply numerator_subseteq; intros r; apply Hsame.
Qed.

Lemma ngram_precision_same_references_witness :
  n_gram_precision Examples.candidate21
    [ ["the"; "cat"]; ["the"; "mat"]; ["the"; "cat"] ] 1
  = n_gram_precision Examples.candidate21 [ ["the"; "mat"]; ["the"; "cat"] ] 1.
Proof.
  apply ngram_precision_same_references; [lia|].
  intros r. rewrite !elem_of_cons. tauto.
Defined.

Section table_facts.

Implicit Types (acc rc : gmap (list string) Z) (g : list string).

Lemma raise_step_is_Some rc acc (ks : list (list string)) g :
  is_Some
    (foldl (λ acc n_gram,
              <[n_gram := Z.max (Counter.get acc n_gram) (Counter.get rc n_gram)]> acc)
           acc ks !! g)
  ↔ is_Some (acc !! g) ∨ g ∈ ks.
Proof.
  revert acc. induction ks as [|x ks IH]; intros acc.
  { cbn. rewrite elem_of_nil. tauto. }
  cbn [foldl]. rewrite IH, lookup_insert_is_Some, elem_of_cons.
  destruct (decide (x = g)) as [->|]; intuition congruence.
Qed.

Lemma raise_max_is_Some acc (l : list (list string)) g :
  is_Some (raise_max acc (Counter.of_list l) !! g) ↔ is_Some (acc !! g) ∨ g ∈ l.
Proof.
  unfold raise_max. rewrite raise_step_is_Some, elem_of_keys, of_list_lookup.
  destruct (decide (g ∈ l)).
  - split; intros _; right; [done|by eexists].
  - split; (intros [?|?]; [by left|]); [by destruct H as [? ?]|done].
Qed.

Lemma max_reference_from_is_Some acc (references : list (list string)) (n : Z) g :
  is_Some
    (foldl (λ acc reference, raise_max acc (Counter.of_list (n_grams reference n)))
           acc references !! g)
  ↔ is_Some (acc !! g) ∨ ∃ r, r ∈ references ∧ g ∈ n_grams r n.
Proof.
  revert acc. induction references as [|r references IH]; intros acc.
  { cbn. split; [by left|]. intros [?|(r & Hr & _)]; [done|]. by apply elem_of_nil in Hr. }
  cbn [foldl]. rewrite IH, raise_max_is_Some. split.
  - intros [[?|?]|(r' & Hr' & Hg)]; [by left|right..].
    + exists r. split; [apply list_elem_of_here|done].
    + exists r'. split; [by apply list_elem_of_further|done].
  - intros [?|(r' & Hr' & Hg)]; [by left; left|].
    apply elem_of_cons in Hr' as [->|Hr']; [by left; right|].
    right. by exists r'.
Qed.

End table_facts.

(** X8: for n >= 1, the table [max_reference_n_grams] has an entry exactly
    for the n-grams that occur in some reference, and the count it gives
    for an n-gram is the largest count in a single reference. *)
Theorem max_reference_table (references : list (list string)) (n : Z) (g : list string) :
  1 ≤ n →
  let table := max_reference_n_grams references n in
  (is_Some (table !! g) ↔ ∃ r, r ∈ references ∧ g ∈ Spec.windows r (Z.to_nat n))
  ∧ (∀ r, r ∈ references →
       Spec.occurrences g (Spec.windows r (Z.to_nat n)) ≤ Counter.get table g)
  ∧ (references ≠ [] →
       ∃ r, r ∈ references
            ∧ Counter.get table g = Spec.occurrences g (Spec.windows r (Z.to_nat n))).
Proof.
  intros Hn table. unfold table. rewrite max_reference_get by done. split; [|split].
  - unfold max_reference_n_grams. rewrite max_reference_from_is_Some, lookup_empty.
    split.
    + intros [[? ?]|(r & Hr & Hg)]; [done|]. exists r.
      by rewrite <- n_grams_windows.
    + intros (r & Hr & Hg). right. exists r. by rewrite n_grams_windows.
  - intros r Hr. by apply ceiling_upper_bound.
  - apply ceiling_attained.
Qed.

Lemma max_reference_table_witness :
  let table := max_reference_n_grams Examples.references2 2 in
  (is_Some (table !! ["the"; "cat"])
   ↔ ∃ r, r ∈ Examples.references2 ∧ ["the"; "cat"] ∈ Spec.windows r (Z.to_nat 2))
  ∧ (∀ r, r ∈ Examples.references2 →
       Spec.occurrences ["the"; "cat"] (Spec.windows r (Z.to_nat 2))
       ≤ Counter.get table ["the"; "cat"])
  ∧ (Examples.references2 ≠ [] →
       ∃ r, r ∈ Examples.references2
            ∧ Counter.get table ["the"; "cat"]
              = Spec.occurrences ["the"; "cat"] (Spec.windows r (Z.to_nat 2))).
Proof. apply (max_reference_table Examples.references2 2 ["the"; "cat"]). lia. Defined.

(** * Further properties of the brevity penalty *)

Section penalty_more.

Implicit Types (candidate : list string) (references : list (list string)).

Lemma min_spec (l : list Z) :
  l ≠ [] → ∃ m, Py.min l = Ok m ∧ m ∈ l ∧ ∀ y, y ∈ l → m ≤ y.
Proof.
  destruct l as [|x l]; [done|]. intros _. eexists. split; [done|].
  apply foldl_min_spec.
Qed.

Lemma min_Permutation (l k : list Z) : l ≡ₚ k → Py.min l = Py.min k.
Proof.
  intros Hperm. destruct l as [|x l].
  { by apply Permutation_nil_l in Hperm as ->. }
  destruct (min_spec (x :: l)) as (m & -> & Hm & Hle); [done|].
  destruct (min_spec k) as (m' & -> & Hm' & Hle').
  { intros ->. by apply Permutation_nil_r in Hperm. }
  f_equal. apply Z.le_antisymm.
  - apply Hle. by rewrite Hperm.
  - apply Hle'. by rewrite <- Hperm.
Qed.

Lemma brevity_penalty_no_reference candidate :
  brevity_penalty candidate [] = Raise ValueError.
Proof. reflexivity. Qed.

Lemma exp_nonpos_le_1 (x : R) : (x <= 0)%R → (0 < exp x <= 1)%R ∧ (exp x = 1%R ↔ x = 0%R).
Proof.
  intros Hx. pose proof (exp_pos x) as Hpos. destruct (Rle_lt_or_eq_dec _ _ Hx) as [Hlt| ->].
  - pose proof (exp_increasing _ _ Hlt) as Hexp. rewrite exp_0 in Hexp.
    split; [lra|]. split; lra.
  - rewrite exp_0. split; [lra|]. by split.
Qed.

Lemma quotient_ge_1 (r c : Z) :
  0 < c → c ≤ r → (1 - IZR r / IZR c <= 0)%R ∧ ((1 - IZR r / IZR c)%R = 0%R ↔ r = c).
Proof.
  intros Hc Hr. apply IZR_lt in Hc as Hc'. apply IZR_le in Hr as Hr'.
  assert (Hdiv : (IZR r / IZR c * IZR c = IZR r)%R) by (field; lra).
  split; [nra|]. split.
  - intros Heq. apply eq_IZR. nra.
  - intros ->. field. lra.
Qed.

End penalty_more.

(** X9: the three outcomes of [brevity_penalty]: [min] fails on an empty
    collection of references (ValueError), whatever the candidate; with
    references and an empty candidate the division fails
    (ZeroDivisionError); in all other cases a value is returned. *)
Theorem brevity_penalty_errors
    (candidate : list string) (references : list (list string)) :
  (brevity_penalty candidate references = Raise ValueError ↔ references = [])
  ∧ (brevity_penalty candidate references = Raise ZeroDivisionError
     ↔ references ≠ [] ∧ candidate = [])
  ∧ ((∃ bp, brevity_penalty candidate references = Ok bp)
     ↔ references ≠ [] ∧ candidate ≠ []).
Proof.
  destruct references as [|r references].
  { rewrite brevity_penalty_no_reference. split; [done|]. split.
    - split; [done|]. by intros [? _].
    - split; [by intros [? ?]|]. by intros [? _]. }
  destruct candidate as [|t candidate].
  { rewrite brevity_penalty_empty_candidate. split; [done|]. split.
    - done.
    - split; [by intros [? ?]|]. by intros [_ ?]. }
  destruct (brevity_penalty_min (t :: candidate) (r :: references))
    as (m & _ & _ & ->); [done..|].
  split; [done|]. split.
  - split; [done|]. by intros [_ ?].
  - split; [done|]. intros _. by eexists.
Qed.

Lemma brevity_penalty_bounds
    (candidate : list string) (references : list (list string)) :
  candidate ≠ [] → references ≠ [] →
  ∃ r bp,
    (∃ reference, reference ∈ references ∧ Py.len reference = r)
    ∧ (∀ reference, reference ∈ references → r ≤ Py.len reference)
    ∧ brevity_penalty candidate references = Ok bp
    ∧ (0 < bp <= 1)%R
    ∧ (bp = 1%R ↔ r ≤ Py.len candidate).
Proof.
  intros Hc Hr.
  destruct (brevity_penalty_min candidate references Hc Hr) as (r & Hin & Hle & ->).
  eexists r, _. split; [done|]. split; [done|]. split; [done|].
  assert (0 < Py.len candidate) as Hpos.
  { unfold Py.len. destruct candidate; [done|]. cbn. lia. }
  destruct (decide (r < Py.len candidate)) as [Hlt|Hge].
  - split; [lra|]. split; [lia|done].
  - destruct (quotient_ge_1 r (Py.len candidate)) as [Hq Hq0]; [lia..|].
    destruct (exp_nonpos_le_1 _ Hq) as [Hrange Hone].
    split; [done|]. rewrite Hone, Hq0. lia.
Qed.

(** X10: for a non-empty candidate and non-empty references, the penalty
    lies between 0 and 1, and it is 1 as soon as the candidate is at least
    as long as some reference: at equal length the test c > r fails and
    the exponential of 0 gives 1. *)
Theorem brevity_penalty_range
    (candidate : list string) (references : list (list string)) :
  candidate ≠ [] → references ≠ [] →
  ∃ bp,
    brevity_penalty candidate references = Ok bp
    ∧ (0 <= bp <= 1)%R
    ∧ ((∃ reference, reference ∈ references ∧ Py.len reference ≤ Py.len candidate) →
       bp = 1%R).
Proof.
  intros Hc Hr.
  destruct (brevity_penalty_bounds candidate references Hc Hr)
    as (r & bp & _ & Hle & -> & Hrange & Hone).
  exists bp. split; [done|]. split; [lra|].
  intros (ref & Href & Hlen). apply Hone. specialize (Hle ref Href). lia.
Qed.

Lemma brevity_penalty_range_witness :
  ∃ bp,
    brevity_penalty ["A"; "test"] [["A"; "test"; "hello"]; ["Another"; "test"]] = Ok bp
    ∧ (0 <= bp <= 1)%R
    ∧ ((∃ reference,
          reference ∈ [["A"; "test"; "hello"]; ["Another"; "test"]]
          ∧ Py.len reference ≤ Py.len ["A"; "test"]) →
       bp = 1%R).
Proof. apply brevity_penalty_range; discriminate. Defined.

(** X11: the penalty reads lengths only: two calls with candidates of
    the same length and the same reference lengths, in any order, agree
    (also on the exception raised). *)
Theorem brevity_penalty_lengths
    (candidate candidate' : list string) (references references' : list (list string)) :
  length candidate = length candidate' →
  length <$> references ≡ₚ length <$> references' →
  brevity_penalty candidate references = brevity_penalty candidate' references'.
Proof.
  intros Hc Hr. unfold brevity_penalty.
  assert (Py.len candidate = Py.len candidate') as -> by (unfold Py.len; by rewrite Hc).
  assert (Py.min (Py.len <$> references) = Py.min (Py.len <$> references')) as ->;
    [|done].
  apply min_Permutation.
  change (@Py.len string) with (Z.of_nat ∘ @length string).
  rewrite !(list_fmap_compose length Z.of_nat). by apply fmap_Permutation.
Qed.

Lemma brevity_penalty_lengths_witness :
  brevity_penalty ["A"; "test"] [["A"; "test"; "hello"]; ["Another"; "test"]]
  = brevity_penalty ["one"; "more"] [["x"; "y"]; ["a"; "b"; "c"]].
Proof.
  apply brevity_penalty_lengths; [reflexivity|]. apply Permutation_swap.
Defined.

(** * Further properties of the score *)

Section score_more.

Implicit Types (candidate : list string) (references : list (list string)).

Lemma ln_unit (x : R) : (0 < x <= 1)%R → (ln x <= 0)%R ∧ (x = 1%R → ln x = 0%R).
Proof.
  intros [Hpos Hle]. split.
  - destruct (Rle_lt_or_eq_dec _ _ Hle) as [Hlt| ->].
    + pose proof (ln_increasing _ _ Hpos Hlt) as Hln. rewrite ln_1 in Hln. lra.
    + rewrite ln_1. lra.
  - intros ->. apply ln_1.
Qed.

Lemma mean_nonpos (l : list R) : Forall (λ x, (x <= 0)%R) l → (Spec.mean l <= 0)%R.
Proof.
  intros Hall. unfold Spec.mean.
  assert (Hsum : (foldr Rplus 0 l <= 0)%R).
  { induction Hall as [|x l Hx _ IH]; cbn; lra. }
  destruct l as [|x l].
  - cbn. lra.
  - assert (0 < INR (length (x :: l)))%R by (apply lt_0_INR; cbn; lia).
    apply Rmult_le_reg_r with (INR (length (x :: l))); [done|].
    unfold Rdiv. rewrite Rmult_assoc, Rinv_l by lra. lra.
Qed.

Lemma mean_zero (l : list R) : Forall (λ x, x = 0%R) l → Spec.mean l = 0%R.
Proof.
  intros Hall. unfold Spec.mean.
  assert (foldr Rplus 0 l = 0)%R as ->.
  { induction Hall as [|x l -> _ IH]; cbn; [done|]. rewrite IH. lra. }
  unfold Rdiv. apply Rmult_0_l.
Qed.

Lemma Q2R_ratio candidate references n :
  Q2R (Spec.ratio candidate references n) =
    if decide (Spec.denominator candidate n = 0) then 0%R
    else (IZR (Spec.numerator candidate references n)
          / IZR (Spec.denominator candidate n))%R.
Proof.
  unfold Spec.ratio. destruct (decide (Spec.denominator candidate n = 0)) as [|Hden].
  - apply RMicromega.Q2R_0.
  - rewrite Q2R_div, !Q2R_inject_Z; [done|]. unfold Qeq. simpl. lia.
Qed.

Lemma ratio_unit candidate references n :
  (0 <= Q2R (Spec.ratio candidate references n) <= 1)%R.
Proof.
  rewrite Q2R_ratio.
  pose proof (numerator_le_denominator candidate references n) as [Hnum Hle].
  destruct (decide (Spec.denominator candidate n = 0)) as [|Hden]; [lra|].
  assert (0 < IZR (Spec.denominator candidate n))%R as Hpos by (apply IZR_lt; lia).
  apply IZR_le in Hnum, Hle.
  assert (Hdiv : (IZR (Spec.numerator candidate references n)
                  / IZR (Spec.denominator candidate n)
                  * IZR (Spec.denominator candidate n)
                  = IZR (Spec.numerator candidate references n))%R) by (field; lra).
  split; nra.
Qed.

Lemma log_ratios_nonpos candidate references (max_n : Z) :
  Forall (λ x, (x <= 0)%R)
    ((λ p, ln (Q2R p))
       <$> filter (λ p, Qpositive p) (Spec.ratios candidate references max_n)).
Proof.
  apply Forall_forall. intros x Hx.
  apply list_elem_of_fmap in Hx as (p & -> & Hp).
  apply list_elem_of_filter in Hp as [Hpos Hp]. apply Qpositive_lt in Hpos.
  unfold Spec.ratios in Hp. apply list_elem_of_fmap in Hp as (n & -> & _).
  apply ln_unit. split; [|apply ratio_unit].
  apply Qlt_Rlt in Hpos. by rewrite RMicromega.Q2R_0 in Hpos.
Qed.

Lemma some_ratio_positive candidate references (max_n : Z) :
  forallb (λ p, Qeq_bool p 0) (Spec.ratios candidate references max_n) = false →
  ∃ n, (1 ≤ n)%nat ∧ Z.of_nat n ≤ max_n
       ∧ (0 < Spec.ratio candidate references n)%Q.
Proof.
  intros Hall.
  assert (Hsome : ¬ Forall (λ p, (p == 0)%Q) (Spec.ratios candidate references max_n)).
  { intros HF. apply all_zero_Forall in HF. congruence. }
  apply not_Forall_Exists in Hsome; [|apply _].
  apply Exists_exists in Hsome as (p & Hp & Hnz).
  apply list_elem_of_fmap in Hp as (n & -> & Hn). apply elem_of_seq in Hn.
  exists n. split; [lia|]. split; [lia|].
  by destruct (ratio_cases candidate references n) as [?|[? _]].
Qed.

(** The score, when some ratio is not 0. *)
Lemma bleu_score_positive (candidate_seq : string) (references_seqs : list string)
    (max_n : Z) :
  forallb (λ p, Qeq_bool p 0)
    (Spec.ratios (tokens candidate_seq) (tokens <$> references_seqs) max_n) = false →
  ∃ bp,
    brevity_penalty (tokens candidate_seq) (tokens <$> references_seqs) = Ok bp
    ∧ (0 < bp <= 1)%R
    ∧ bleu_score_sentence candidate_seq references_seqs max_n =
        Ok (bp * exp (np_mean
                        ((λ p, ln (Q2R p))
                           <$> filter (λ p, Qpositive p)
                                 (Spec.ratios (tokens candidate_seq)
                                    (tokens <$> references_seqs) max_n))))%R.
Proof.
  intros Hall.
  destruct (some_ratio_positive _ _ _ Hall) as (n & Hn & _ & Hpos).
  destruct (ratio_positive_inputs _ _ n Hn Hpos) as [Hc Hr].
  destruct (brevity_penalty_bounds _ _ Hc Hr) as (r & bp & _ & _ & Hbp & Hrange & _).
  exists bp. split; [done|]. split; [done|].
  rewrite bleu_score_sentence_unfold. cbv zeta. by rewrite Hall, Hbp.
Qed.

End score_more.

(** X12: [bleu_score_sentence] never raises, for any candidate string,
    reference strings and [max_n], although [n_gram_precision] and
    [brevity_penalty] can; and the score lies between 0 and 1. *)
Theorem bleu_score_unit_interval
    (candidate_seq : string) (references_seqs : list string) (max_n : Z) :
  ∃ score,
    bleu_score_sentence candidate_seq references_seqs max_n = Ok score
    ∧ (0 <= score <= 1)%R.
Proof.
  destruct (forallb (λ p, Qeq_bool p 0)
              (Spec.ratios (tokens candidate_seq) (tokens <$> references_seqs) max_n))
    eqn:Hall.
  - exists 0%R. split; [|lra].
    rewrite bleu_score_sentence_unfold. cbv zeta. by rewrite Hall.
  - destruct (bleu_score_positive _ _ _ Hall) as (bp & _ & Hbp & ->).
    eexists. split; [done|].
    pose proof (mean_nonpos _ (log_ratios_nonpos (tokens candidate_seq)
                                 (tokens <$> references_seqs) max_n)) as Hmean.
    rewrite <- np_mean_mean in Hmean.
    destruct (exp_nonpos_le_1 _ Hmean) as [Hexp _]. nra.
Qed.

Section common_tokens.

Implicit Types (candidate : list string) (references : list (list string)).

Lemma sum_fmap_elem_le {A} (f : A → Z) (l : list A) (x : A) :
  (∀ y, y ∈ l → 0 ≤ f y) → x ∈ l → f x ≤ Py.sum (f <$> l).
Proof.
  induction l as [|y l IH]; intros Hf Hx; [by apply elem_of_nil in Hx|].
  rewrite fmap_cons, sum_cons.
  assert (0 ≤ Py.sum (f <$> l)) as Hrest.
  { apply sum_fmap_nonneg. intros z Hz. apply Hf. by apply list_elem_of_further. }
  apply elem_of_cons in Hx as [->|Hx]; [lia|].
  pose proof (Hf y (list_elem_of_here _ _)).
  assert (f x ≤ Py.sum (f <$> l)); [|lia].
  apply IH; [|done]. intros z Hz. apply Hf. by apply list_elem_of_further.
Qed.

Lemma sum_fmap_zero {A} (f : A → Z) (l : list A) :
  (∀ x, x ∈ l → f x = 0) → Py.sum (f <$> l) = 0.
Proof.
  induction l as [|x l IH]; intros Hf; [done|].
  rewrite fmap_cons, sum_cons, Hf by apply list_elem_of_here.
  rewrite IH; [done|]. intros y Hy. apply Hf. by apply list_elem_of_further.
Qed.

Lemma token_window (s : list string) (t : string) : t ∈ s → [t] ∈ Spec.windows s 1.
Proof.
  intros Ht. apply elem_of_windows. split; [done|].
  apply list_elem_of_split in Ht as (pre & post & ->). by exists pre, post.
Qed.

Lemma window_head (s g : list string) (n : nat) :
  (1 ≤ n)%nat → g ∈ Spec.windows s n → ∃ t g', g = t :: g' ∧ t ∈ s.
Proof.
  intros Hn Hg. apply elem_of_windows in Hg as (Hlen & pre & post & ->).
  destruct g as [|t g']; [cbn in Hlen; lia|]. exists t, g'. split; [done|].
  rewrite elem_of_app. right. apply list_elem_of_here.
Qed.

Lemma numerator_common_token candidate references (t : string) (r : list string) :
  t ∈ candidate → r ∈ references → t ∈ r → 1 ≤ Spec.numerator candidate references 1.
Proof.
  intros Hc Hr Ht. unfold Spec.numerator. rewrite <- sum_total.
  etrans; [|apply (sum_fmap_elem_le _ _ [t])].
  - pose proof (occurrences_elem _ _ (token_window candidate t Hc)).
    pose proof (occurrences_elem _ _ (token_window r t Ht)).
    pose proof (ceiling_upper_bound references 1 [t] r Hr). lia.
  - intros g _. pose proof (occurrences_nonneg g (Spec.windows candidate 1)).
    pose proof (ceiling_nonneg references 1 g). lia.
  - apply elem_of_remove_dups. by apply token_window.
Qed.

Lemma numerator_no_common_token candidate references (n : nat) :
  (1 ≤ n)%nat →
  (∀ t r, t ∈ candidate → r ∈ references → t ∉ r) →
  Spec.numerator candidate references n = 0.
Proof.
  intros Hn Hno. unfold Spec.numerator. rewrite <- sum_total.
  apply sum_fmap_zero. intros g Hg. rewrite elem_of_remove_dups in Hg.
  destruct (window_head _ _ _ Hn Hg) as (t & g' & -> & Ht).
  rewrite ceiling_absent.
  - pose proof (occurrences_nonneg (t :: g') (Spec.windows candidate n)). lia.
  - intros r Hr Hw. destruct (window_head _ _ _ Hn Hw) as (t' & g'' & [= <- <-] & Ht').
    by apply (Hno t r).
Qed.

Lemma ratio_zero_iff candidate references (n : nat) :
  (Spec.ratio candidate references n == 0)%Q ↔ Spec.numerator candidate references n = 0.
Proof.
  pose proof (numerator_le_denominator candidate references n) as [Hnum Hle].
  split.
  - intros Hz. apply Qeq_eqR in Hz. rewrite Q2R_ratio, RMicromega.Q2R_0 in Hz.
    destruct (decide (Spec.denominator candidate n = 0)) as [|Hden]; [lia|].
    apply eq_IZR.
    assert (0 < IZR (Spec.denominator candidate n))%R as Hpos by (apply IZR_lt; lia).
    assert (Hdiv : (IZR (Spec.numerator candidate references n)
                    / IZR (Spec.denominator candidate n)
                    * IZR (Spec.denominator candidate n)
                    = IZR (Spec.numerator candidate references n))%R) by (field; lra).
    nra.
  - intros Hz. unfold Spec.ratio.
    destruct (decide (Spec.denominator candidate n = 0)); [done|].
    rewrite Hz. unfold Qeq. simpl. lia.
Qed.

Lemma all_zero_numerators candidate references (max_n : Z) :
  forallb (λ p, Qeq_bool p 0) (Spec.ratios candidate references max_n) = true
  ↔ ∀ n, (1 ≤ n)%nat → Z.of_nat n ≤ max_n → Spec.numerator candidate references n = 0.
Proof.
  rewrite all_zero_Forall, Forall_forall. unfold Spec.ratios. split.
  - intros Hall n Hn Hmax. apply ratio_zero_iff, Hall.
    apply list_elem_of_fmap. exists n. split; [done|]. apply elem_of_seq. lia.
  - intros Hall p Hp. apply list_elem_of_fmap in Hp as (n & -> & Hn).
    apply elem_of_seq in Hn. apply ratio_zero_iff, Hall; lia.
Qed.

End common_tokens.

(** X13: for max_n >= 1, every order from 1 to max_n has a clipped count
    of 0 exactly when no token of the candidate occurs in any reference;
    the score is then 0. *)
Theorem bleu_score_no_common_token
    (candidate_seq : string) (references_seqs : list string) (max_n : Z) :
  1 ≤ max_n →
  let candidate := tokens candidate_seq in
  let references := tokens <$> references_seqs in
  ((∀ n, 1 ≤ n ≤ max_n →
      ∃ total, n_gram_precision candidate references n = Ok (0, total))
   ↔ ∀ t r, t ∈ candidate → r ∈ references → t ∉ r)
  ∧ ((∀ t r, t ∈ candidate → r ∈ references → t ∉ r) →
     bleu_score_sentence candidate_seq references_seqs max_n = Ok 0%R).
Proof.
  intros Hmax candidate references. split.
  - split.
    + intros Hall t r Ht Hr Hin.
      pose proof (numerator_common_token _ _ t r Ht Hr Hin) as Hnum.
      destruct (Hall 1) as (total & Hone); [lia|].
      rewrite n_gram_precision_spec in Hone by lia.
      injection Hone as Hone _. change (Z.to_nat 1) with 1%nat in Hone. lia.
    + intros Hno n Hn. eexists. rewrite n_gram_precision_spec by lia.
      by rewrite numerator_no_common_token by (done || lia).
  - intros Hno. rewrite bleu_score_sentence_unfold. cbv zeta.
    fold candidate references.
    assert (forallb (λ p, Qeq_bool p 0) (Spec.ratios candidate references max_n) = true)
      as ->; [|done].
    apply all_zero_numerators. intros n Hn _. by apply numerator_no_common_token.
Qed.

Lemma bleu_score_no_common_token_witness :
  let candidate := tokens "xx" in
  let references := tokens <$> Examples.sentences2 in
  ((∀ n, 1 ≤ n ≤ 4 →
      ∃ total, n_gram_precision candidate references n = Ok (0, total))
   ↔ ∀ t r, t ∈ candidate → r ∈ references → t ∉ r)
  ∧ ((∀ t r, t ∈ candidate → r ∈ references → t ∉ r) →
     bleu_score_sentence "xx" Examples.sentences2 4 = Ok 0%R).
Proof. apply (bleu_score_no_common_token "xx" Examples.sentences2 4). lia. Defined.

Section score_cases.

Implicit Types (candidate : list string) (references : list (list string)).

Lemma Q2R_ratio_member candidate references n :
  candidate ∈ references →
  Q2R (Spec.ratio candidate references n) =
    if decide (Spec.denominator candidate n = 0) then 0%R else 1%R.
Proof.
  intros Hin. rewrite Q2R_ratio, numerator_member by done.
  destruct (decide (Spec.denominator candidate n = 0)) as [|Hden]; [done|].
  field. intros Hz. by apply eq_IZR in Hz.
Qed.

Lemma ratios_Permutation candidate references references' (max_n : Z) :
  references ≡ₚ references' →
  Spec.ratios candidate references max_n = Spec.ratios candidate references' max_n.
Proof.
  intros Hperm. unfold Spec.ratios. apply list_fmap_ext. intros _ n _.
  unfold Spec.ratio. by rewrite (numerator_Permutation _ _ _ _ Hperm).
Qed.

Lemma brevity_penalty_Permutation candidate references references' :
  references ≡ₚ references' →
  brevity_penalty candidate references = brevity_penalty candidate references'.
Proof.
  intros Hperm. unfold brevity_penalty.
  by rewrite (min_Permutation _ _ (fmap_Permutation Py.len _ _ Hperm)).
Qed.

(** The ratio of an order above the length of the candidate is 0. *)
Lemma ratio_above candidate references (n : nat) :
  (length candidate < n)%nat → Spec.ratio candidate references n = 0%Q.
Proof.
  intros Hn. unfold Spec.ratio. rewrite decide_True; [done|].
  unfold Spec.denominator. rewrite windows_length. lia.
Qed.

Lemma ratios_above candidate references (max_n : Z) :
  Py.len candidate ≤ max_n →
  ∃ zeros,
    Spec.ratios candidate references max_n
      = Spec.ratios candidate references (Py.len candidate) ++ zeros
    ∧ Forall (λ p, p = 0%Q) zeros.
Proof.
  intros Hmax. unfold Spec.ratios, Py.len in *. rewrite Nat2Z.id.
  replace (Z.to_nat max_n)
    with (length candidate + (Z.to_nat max_n - length candidate))%nat by lia.
  rewrite seq_app, fmap_app. eexists. split; [done|].
  apply Forall_forall. intros p Hp. apply list_elem_of_fmap in Hp as (n & -> & Hn).
  apply elem_of_seq in Hn. apply ratio_above. lia.
Qed.

Lemma zeros_all_zero (zeros : list Q) :
  Forall (λ p, p = 0%Q) zeros →
  forallb (λ p, Qeq_bool p 0) zeros = true ∧ filter (λ p, Qpositive p) zeros = [].
Proof.
  induction 1 as [|p zeros -> _ [IH1 IH2]]; [done|]. split.
  - cbn [forallb]. by rewrite IH1.
  - rewrite filter_cons_False; [done|]. by vm_compute.
Qed.

End score_cases.

(** X14: for max_n >= 1, a candidate with at least one token whose tokens
    are those of one of the references scores 1, also when it has fewer
    tokens than max_n: the orders without n-gram are left out of the
    mean. *)
Theorem bleu_score_of_a_reference
    (candidate_seq : string) (references_seqs : list string) (max_n : Z) :
  1 ≤ max_n →
  tokens candidate_seq ≠ [] →
  tokens candidate_seq ∈ tokens <$> references_seqs →
  bleu_score_sentence candidate_seq references_seqs max_n = Ok 1%R.
Proof.
  intros Hmax Hne Hin.
  set (candidate := tokens candidate_seq) in *.
  set (references := tokens <$> references_seqs) in *.
  assert (Hall : forallb (λ p, Qeq_bool p 0)
                   (Spec.ratios candidate references max_n) = false).
  { destruct (forallb _ _) eqn:Hall; [|done].
    assert (H1 := proj1 (all_zero_numerators _ _ _) Hall 1%nat).
    rewrite numerator_member in H1 by done.
    unfold Spec.denominator in H1. rewrite windows_length in H1.
    destruct candidate; [done|]. cbn in H1. lia. }
  destruct (bleu_score_positive candidate_seq references_seqs max_n Hall)
    as (bp & Hbp & _ & ->).
  fold candidate references in Hbp |- *.
  destruct (brevity_penalty_bounds candidate references) as
    (r & bp' & _ & Hle & Hbp' & _ & Hone); [done|by intros Heq; rewrite Heq in Hin; apply elem_of_nil in Hin|].
  rewrite Hbp in Hbp'. injection Hbp' as <-.
  rewrite (proj2 Hone) by (by apply Hle).
  rewrite np_mean_mean, mean_zero.
  - rewrite exp_0. f_equal. lra.
  - apply Forall_forall. intros x Hx.
    apply list_elem_of_fmap in Hx as (p & -> & Hp).
    apply list_elem_of_filter in Hp as [Hpos Hp]. apply Qpositive_lt in Hpos.
    unfold Spec.ratios in Hp. apply list_elem_of_fmap in Hp as (n & -> & _).
    apply Qlt_Rlt in Hpos. rewrite RMicromega.Q2R_0 in Hpos.
    rewrite Q2R_ratio_member in Hpos |- * by done.
    destruct (decide (Spec.denominator candidate n = 0)); [lra|apply ln_1].
Qed.

Lemma bleu_score_of_a_reference_witness :
  bleu_score_sentence "A, b c!" ["x y z w"; "a B c"] 4 = Ok 1%R.
Proof.
  apply bleu_score_of_a_reference; [lia|vm_compute; discriminate|].
  vm_compute. apply list_elem_of_further, list_elem_of_here.
Defined.

(** X15: the score does not depend on the order of the references. *)
Theorem bleu_score_reference_order
    (candidate_seq : string) (references_seqs references_seqs' : list string)
    (max_n : Z) :
  references_seqs ≡ₚ references_seqs' →
  bleu_score_sentence candidate_seq references_seqs max_n
  = bleu_score_sentence candidate_seq references_seqs' max_n.
Proof.
  intros Hperm. rewrite !bleu_score_sentence_unfold. cbv zeta.
  pose proof (fmap_Permutation tokens _ _ Hperm) as Htok.
  rewrite (ratios_Permutation _ _ _ _ Htok).
  by rewrite (brevity_penalty_Permutation _ _ _ Htok).
Qed.

Lemma bleu_score_reference_order_witness :
  bleu_score_sentence "the cat" ["The cat is on the mat."; "A dog."] 4
  = bleu_score_sentence "the cat" ["A dog."; "The cat is on the mat."] 4.
Proof. apply bleu_score_reference_order. apply Permutation_swap. Defined.

(** X16: orders above the number of tokens of the candidate change
    nothing: for max_n at least this number, the score is the one for
    max_n equal to it. *)
Theorem bleu_score_orders_above_length
    (candidate_seq : string) (references_seqs : list string) (max_n : Z) :
  Py.len (tokens candidate_seq) ≤ max_n →
  bleu_score_sentence candidate_seq references_seqs max_n
  = bleu_score_sentence candidate_seq references_seqs (Py.len (tokens candidate_seq)).
Proof.
  intros Hmax. rewrite !bleu_score_sentence_unfold. cbv zeta.
  destruct (ratios_above (tokens candidate_seq) (tokens <$> references_seqs) max_n Hmax)
    as (zeros & -> & Hzeros).
  destruct (zeros_all_zero zeros Hzeros) as [Hall Hfilter].
  by rewrite forallb_app, Hall, andb_true_r, filter_app, Hfilter, app_nil_r.
Qed.

Lemma bleu_score_orders_above_length_witness :
  bleu_score_sentence "A, b c!" ["x y z w"; "a B c"] 4
  = bleu_score_sentence "A, b c!" ["x y z w"; "a B c"] (Py.len (tokens "A, b c!")).
Proof. apply bleu_score_orders_above_length. vm_compute. discriminate. Defined.

Section unigrams.

Implicit Types (candidate : list string) (references : list (list string)).

Lemma windows_1 (s : list string) : Spec.windows s 1 = (λ t, [t]) <$> s.
Proof.
  unfold Spec.windows. replace (length s + 1 - 1)%nat with (length s) by lia.
  induction s as [|t s IH]; [done|].
  cbn [length seq fmap list_fmap]. rewrite <- fmap_S_seq, <- list_fmap_compose.
  f_equal. exact IH.
Qed.

Lemma occurrences_Permutation (g : list string) (l k : list (list string)) :
  l ≡ₚ k → Spec.occurrences g l = Spec.occurrences g k.
Proof. intros Hperm. unfold Spec.occurrences. by rewrite Hperm. Qed.

Lemma remove_dups_Permutation (l k : list (list string)) :
  l ≡ₚ k → remove_dups l ≡ₚ remove_dups k.
Proof.
  intros Hperm. apply NoDup_Permutation; [apply NoDup_remove_dups..|].
  intros g. by rewrite !elem_of_remove_dups, Hperm.
Qed.

Lemma numerator_unigram_Permutation candidate candidate' references :
  candidate ≡ₚ candidate' →
  Spec.numerator candidate references 1 = Spec.numerator candidate' references 1.
Proof.
  intros Hperm.
  assert (Hw : Spec.windows candidate 1 ≡ₚ Spec.windows candidate' 1).
  { rewrite !windows_1. by apply fmap_Permutation. }
  unfold Spec.numerator. rewrite <- !sum_total.
  rewrite (sum_Permutation _ _ (fmap_Permutation _ _ _ (remove_dups_Permutation _ _ Hw))).
  apply sum_fmap_ext. intros g _. by rewrite (occurrences_Permutation g _ _ Hw).
Qed.

End unigrams.

(** X17: the unigram precision does not depend on the order of the
    words of the candidate. *)
Theorem unigram_precision_word_order
    (candidate candidate' : list string) (references : list (list string)) :
  candidate ≡ₚ candidate' →
  n_gram_precision candidate references 1 = n_gram_precision candidate' references 1.
Proof.
  intros Hperm. rewrite !n_gram_precision_spec by lia.
  rewrite (numerator_unigram_Permutation _ _ _ Hperm).
  unfold Spec.denominator. by rewrite !windows_length, Hperm.
Qed.

Lemma unigram_precision_word_order_witness :
  n_gram_precision ["the"; "cat"; "sat"] Examples.references2 1
  = n_gram_precision ["cat"; "the"; "sat"] Examples.references2 1.
Proof. apply unigram_precision_word_order. apply Permutation_swap. Defined.
